(** * Rigify IK/FK snapping: a shallow embedding of [rig_ui.py]

    The numeric core of the rig UI script (space conversion, rotation
    difference, the bracket scan and ternary search of the rotation
    correction, pole-target placement and the legacy stretch copy) is
    embedded over the real numbers.  Python floats are read as reals, so
    every statement below is exact; rounding is outside the model.

    What Blender and [mathutils] compute behind the script (quaternion
    extraction, re-encoding of rotation channels when the rotation mode is
    assigned, re-evaluation of the pose after a scene update) is gathered
    in a [Host] record and stays abstract in the theorems. *)

From Stdlib Require Import Reals Lra Lia RNsatz.
From stdpp Require Import gmap strings.

Open Scope R_scope.
Set Warnings "-register-all".

(** Comparisons of floats are decided on the reals. *)
#[global] Instance Rlt_decision (x y : R) : Decision (x < y) := Rlt_dec x y.
#[global] Instance Rgt_decision (x y : R) : Decision (x > y) := Rgt_dec x y.

(** ** Vectors and quaternions ([mathutils.Vector], [mathutils.Quaternion]) *)

Record Vector := vec3 { vx : R; vy : R; vz : R }.

Definition vadd (u v : Vector) : Vector :=
  vec3 (vx u + vx v) (vy u + vy v) (vz u + vz v).
Definition vsub (u v : Vector) : Vector :=
  vec3 (vx u - vx v) (vy u - vy v) (vz u - vz v).
Definition vscale (v : Vector) (s : R) : Vector :=
  vec3 (vx v * s) (vy v * s) (vz v * s).
Definition vdiv (v : Vector) (s : R) : Vector :=
  vec3 (vx v / s) (vy v / s) (vz v / s).
Definition vdot (u v : Vector) : R :=
  vx u * vx v + vy u * vy v + vz u * vz v.
Definition cross (u v : Vector) : Vector :=
  vec3 (vy u * vz v - vz u * vy v)
       (vz u * vx v - vx u * vz v)
       (vx u * vy v - vy u * vx v).
Definition vzero : Vector := vec3 0 0 0.

(** [v.length] *)
Definition vlength (v : Vector) : R := sqrt (vdot v v).

(** [v.normalized()]: the zero vector is returned unchanged. *)
Definition normalized (v : Vector) : Vector :=
  if Req_dec_T (vlength v) 0 then v else vdiv v (vlength v).

Record Quaternion := quat { qw : R; qx : R; qy : R; qz : R }.

(** [q1.dot(q2)] *)
Definition qdot (p q : Quaternion) : R :=
  qw p * qw q + qx p * qx q + qy p * qy q + qz p * qz q.

(** ** 4x4 matrices ([mathutils.Matrix]) *)

Inductive Ix := I0 | I1 | I2 | I3.
Record Row := row4 { c0 : R; c1 : R; c2 : R; c3 : R }.
Record Matrix := mat4 { r0 : Row; r1 : Row; r2 : Row; r3 : Row }.

Definition col (r : Row) (j : Ix) : R :=
  match j with I0 => c0 r | I1 => c1 r | I2 => c2 r | I3 => c3 r end.
Definition line (m : Matrix) (i : Ix) : Row :=
  match i with I0 => r0 m | I1 => r1 m | I2 => r2 m | I3 => r3 m end.
Definition entry (m : Matrix) (i j : Ix) : R := col (line m i) j.

Definition build (f : Ix -> Ix -> R) : Matrix :=
  let r i := row4 (f i I0) (f i I1) (f i I2) (f i I3) in
  mat4 (r I0) (r I1) (r I2) (r I3).

Definition sum4 (f : Ix -> R) : R := f I0 + f I1 + f I2 + f I3.

(** [a * b] on matrices (the 2.7x operator). *)
Definition mmul (a b : Matrix) : Matrix :=
  build (fun i j => sum4 (fun k => entry a i k * entry b k j)).

(** [Matrix()] *)
Definition Matrix_identity : Matrix :=
  build (fun i j =>
           match i, j with
           | I0, I0 | I1, I1 | I2, I2 | I3, I3 => 1
           | _, _ => 0
           end).

Definition others (i : Ix) : Ix * Ix * Ix :=
  match i with
  | I0 => (I1, I2, I3) | I1 => (I0, I2, I3)
  | I2 => (I0, I1, I3) | I3 => (I0, I1, I2)
  end.

Definition minor (m : Matrix) (i j : Ix) : R :=
  let '(a, b, c) := others i in
  let '(p, q, r) := others j in
  entry m a p * (entry m b q * entry m c r - entry m b r * entry m c q)
  - entry m a q * (entry m b p * entry m c r - entry m b r * entry m c p)
  + entry m a r * (entry m b p * entry m c q - entry m b q * entry m c p).

Definition odd_ix (i : Ix) : bool :=
  match i with I1 | I3 => true | _ => false end.

Definition cofactor (m : Matrix) (i j : Ix) : R :=
  if xorb (odd_ix i) (odd_ix j) then - minor m i j else minor m i j.

Definition determinant (m : Matrix) : R :=
  sum4 (fun j => entry m I0 j * cofactor m I0 j).

(** [m.inverted()]: adjugate over determinant; [None] stands for the
    [ValueError] mathutils raises on a matrix without an inverse. *)
Definition inverted (m : Matrix) : option Matrix :=
  if Req_dec_T (determinant m) 0 then None
  else Some (build (fun i j => cofactor m j i / determinant m)).

(** [m.to_translation()] *)
Definition to_translation (m : Matrix) : Vector :=
  vec3 (entry m I0 I3) (entry m I1 I3) (entry m I2 I3).

(** [Matrix.Translation(v)] *)
Definition Translation (v : Vector) : Matrix :=
  mat4 (row4 1 0 0 (vx v)) (row4 0 1 0 (vy v)) (row4 0 0 1 (vz v))
       (row4 0 0 0 1).

(** ** Bones *)

Inductive EulerOrder := XYZ | XZY | YXZ | YZX | ZXY | ZYX.
Inductive RotMode := QUATERNION | AXIS_ANGLE | EULER (o : EulerOrder).

#[global] Instance EulerOrder_eq_dec : EqDecision EulerOrder.
Proof. solve_decision. Defined.
#[global] Instance RotMode_eq_dec : EqDecision RotMode.
Proof. solve_decision. Defined.

(** [rotation_axis_angle]: index 0 is the angle, indices 1..3 the axis. *)
Record AxisAngle := axis_angle { aa_angle : R; aa_axis : Vector }.

(** [bpy.types.Bone]: the rest data the script reads. *)
Inductive Bone := mkBone {
  matrix_local : Matrix;
  use_local_location : bool;
  bone_parent : option Bone
}.

(** [bpy.types.PoseBone]: the attributes the script reads and writes.
    [matrix], [tail] and [vector] are the evaluated (cached) pose data;
    [props] are the custom properties reached by [bone[key]]. *)
Inductive PoseBone := mkPoseBone {
  bone : Bone;
  parent : option PoseBone;
  matrix : Matrix;
  tail : Vector;
  vector : Vector;
  location : Vector;
  rotation_mode : RotMode;
  rotation_axis_angle : AxisAngle;
  props : gmap string R
}.

Definition with_tail (t : Vector) (b : PoseBone) : PoseBone :=
  mkPoseBone (bone b) (parent b) (matrix b) t (vector b) (location b)
             (rotation_mode b) (rotation_axis_angle b) (props b).
Definition with_location (l : Vector) (b : PoseBone) : PoseBone :=
  mkPoseBone (bone b) (parent b) (matrix b) (tail b) (vector b) l
             (rotation_mode b) (rotation_axis_angle b) (props b).
Definition with_rotation_mode (m : RotMode) (b : PoseBone) : PoseBone :=
  mkPoseBone (bone b) (parent b) (matrix b) (tail b) (vector b) (location b)
             m (rotation_axis_angle b) (props b).
Definition with_angle (a : R) (b : PoseBone) : PoseBone :=
  mkPoseBone (bone b) (parent b) (matrix b) (tail b) (vector b) (location b)
             (rotation_mode b)
             (axis_angle a (aa_axis (rotation_axis_angle b))) (props b).
Definition with_props (p : gmap string R) (b : PoseBone) : PoseBone :=
  mkPoseBone (bone b) (parent b) (matrix b) (tail b) (vector b) (location b)
             (rotation_mode b) (rotation_axis_angle b) p.

(** ** The host

    What the script obtains from [mathutils] and from Blender's pose
    evaluation.  [rotation_mode_changed m b] is the re-encoding of the
    rotation channels Blender performs when [b.rotation_mode = m] is
    assigned; [evaluated_tail b] is [b.tail] once the scene has been
    updated; [ik_solve pole first] is [first.matrix] once the pose has been
    re-evaluated with the pole target in state [pole]. *)
Record Host := mkHost {
  to_quaternion : Matrix -> Quaternion;
  Rotation : R -> Vector -> Matrix;
  quaternion_rotate : Quaternion -> Vector -> Vector;
  rotation_mode_changed : RotMode -> PoseBone -> PoseBone;
  evaluated_tail : PoseBone -> Vector;
  ik_solve : PoseBone -> PoseBone -> Matrix
}.

(** ** Outcomes and the bone-state monad

    A call returns, raises, or exhausts the unrolling budget of a [while]
    loop.  Stateful code threads the pose bone it mutates; what was written
    before an exception stays written. *)

Inductive exn := TypeError | ValueError | KeyError.

Inductive outcome (A : Type) :=
| Returns (a : A)
| Raises (e : exn)
| OutOfFuel.
Arguments Returns {A} a.
Arguments Raises {A} e.
Arguments OutOfFuel {A}.

Definition M (A : Type) : Type := PoseBone -> outcome A * PoseBone.

Definition ret {A} (a : A) : M A := fun s => (Returns a, s).
Definition raise {A} (e : exn) : M A := fun s => (Raises e, s).
Definition out_of_fuel {A} : M A := fun s => (OutOfFuel, s).
Definition bind {A B} (c : M A) (k : A -> M B) : M B :=
  fun s =>
    match c s with
    | (Returns a, s') => k a s'
    | (Raises e, s') => (Raises e, s')
    | (OutOfFuel, s') => (OutOfFuel, s')
    end.
Definition get : M PoseBone := fun s => (Returns s, s).
Definition modify (f : PoseBone -> PoseBone) : M unit :=
  fun s => (Returns tt, f s).
Definition lift {A} (o : outcome A) : M A := fun s => (o, s).

Notation "x <- c1 ;; c2" := (bind c1 (fun x => c2))
  (at level 100, c1 at next level, right associativity).
Notation "c1 ;; c2" := (bind c1 (fun _ => c2))
  (at level 100, right associativity).

(** An objective [f(angle, bone_ik, bone_fk)]: [bone_ik] is the threaded
    state, [bone_fk] is only read. *)
Definition Objective : Type := R -> PoseBone -> M R.

(** ** Math utility functions *)

Definition perpendicular_vector (v : Vector) : Vector :=
  if Rlt_dec (Rabs (vx v)) (Rabs (vy v))
  then cross v (vec3 1 0 0)
  else cross v (vec3 0 1 0).

Section WithHost.
Variable h : Host.

Definition rotation_difference (mat1 mat2 : Matrix) : R :=
  let q1 := to_quaternion h mat1 in
  let q2 := to_quaternion h mat2 in
  let angle := acos (Rmin 1 (Rmax (-1) (qdot q1 q2))) * 2 in
  if Rgt_dec angle PI then - angle + 2 * PI else angle.

(** [bone.rotation_mode = m] *)
Definition assign_rotation_mode (m : RotMode) : M unit :=
  modify (fun b => with_rotation_mode m (rotation_mode_changed h m b)).

(** [bone.rotation_axis_angle[0] = a] *)
Definition assign_angle (a : R) : M unit := modify (with_angle a).

(** [bpy.context.scene.update()] *)
Definition scene_update : M unit :=
  modify (fun b => with_tail (evaluated_tail h b) b).

Definition tail_distance : Objective := fun angle bone_fk =>
  bone_ik <- get ;;
  let rot_mod := rotation_mode bone_ik in
  (if decide (rot_mod <> AXIS_ANGLE)
   then assign_rotation_mode AXIS_ANGLE else ret tt) ;;
  assign_angle angle ;;
  scene_update ;;
  bone_ik <- get ;;
  let dv := vlength (vsub (tail bone_fk) (tail bone_ik)) in
  assign_rotation_mode rot_mod ;;
  ret dv.

(** The [while] loop of [find_min_range]; [fuel] bounds the number of
    times its condition is tested. *)
Fixpoint find_min_range_loop (fuel : nat) (f : Objective) (delta : R)
    (bone_fk : PoseBone) (rot_mod : RotMode) (start_angle angle : R)
    : M (option (R * R)) :=
  match fuel with
  | O => out_of_fuel
  | S fuel' =>
    if bool_decide (angle > start_angle - 2 * PI)
       && bool_decide (angle < start_angle + 2 * PI)
    then
      l_dist <- f (angle - delta) bone_fk ;;
      c_dist <- f angle bone_fk ;;
      r_dist <- f (angle + delta) bone_fk ;;
      if Req_dec_T (Rmin (Rmin l_dist c_dist) r_dist) c_dist
      then
        assign_rotation_mode rot_mod ;;
        ret (Some (angle - delta, angle + delta))
      else
        find_min_range_loop fuel' f delta bone_fk rot_mod start_angle
                            (angle + delta)
    else ret None
  end.

(** The state in which the scan starts: the bone switched to axis-angle. *)
Definition find_min_range_entry : M unit :=
  bone_ik <- get ;;
  if decide (rotation_mode bone_ik <> AXIS_ANGLE)
  then assign_rotation_mode AXIS_ANGLE else ret tt.

Definition find_min_range (fuel : nat) (bone_fk : PoseBone) (f : Objective)
    (delta : R) : M (option (R * R)) :=
  bone_ik <- get ;;
  let rot_mod := rotation_mode bone_ik in
  find_min_range_entry ;;
  bone_ik <- get ;;
  let start_angle := aa_angle (rotation_axis_angle bone_ik) in
  find_min_range_loop fuel f delta bone_fk rot_mod start_angle start_angle.

Fixpoint ternarySearch (fuel : nat) (f : Objective) (left right : R)
    (bone_fk : PoseBone) (absolutePrecision : R) : M R :=
  match fuel with
  | O => out_of_fuel
  | S fuel' =>
    if Rlt_dec (Rabs (right - left)) absolutePrecision
    then ret ((left + right) / 2)
    else
      let leftThird := left + (right - left) / 3 in
      let rightThird := right - (right - left) / 3 in
      fl <- f leftThird bone_fk ;;
      fr <- f rightThird bone_fk ;;
      if Rgt_dec fl fr
      then ternarySearch fuel' f leftThird right bone_fk absolutePrecision
      else ternarySearch fuel' f left rightThird bone_fk absolutePrecision
  end.

(** ** "Visual Transform" helper functions *)

Definition inverted_or_raise (m : Matrix) : outcome Matrix :=
  match inverted m with
  | Some mi => Returns mi
  | None => Raises ValueError
  end.

Definition get_pose_matrix_in_other_space (mat : Matrix) (pose_bone : PoseBone)
    : outcome Matrix :=
  let rest := matrix_local (bone pose_bone) in
  match inverted_or_raise rest with
  | Returns rest_inv =>
    match parent pose_bone with
    | Some p =>
      let par_mat := matrix p in
      match inverted_or_raise par_mat with
      | Returns par_inv =>
        let par_rest := matrix_local (bone p) in
        Returns (mmul rest_inv (mmul par_rest (mmul par_inv mat)))
      | Raises e => Raises e
      | OutOfFuel => OutOfFuel
      end
    | None =>
      let par_inv := Matrix_identity in
      let par_rest := Matrix_identity in
      Returns (mmul rest_inv (mmul par_rest (mmul par_inv mat)))
    end
  | Raises e => Raises e
  | OutOfFuel => OutOfFuel
  end.

(** [set_pose_translation(pose_bone, mat)]; the state is [pose_bone]. *)
Definition set_pose_translation (mat : Matrix) : M unit :=
  pose_bone <- get ;;
  if use_local_location (bone pose_bone)
  then modify (with_location (to_translation mat))
  else
    let loc := to_translation mat in
    let rest := matrix_local (bone pose_bone) in
    let par_rest :=
      match bone_parent (bone pose_bone) with
      | Some pb => matrix_local pb
      | None => Matrix_identity
      end in
    par_rest_inv <- lift (inverted_or_raise par_rest) ;;
    let q := to_quaternion h (mmul par_rest_inv rest) in
    modify (with_location (quaternion_rotate h q loc)).

Definition correct_rotation (fuel : nat) (bone_fk : PoseBone) : M unit :=
  alfarange <- find_min_range fuel bone_fk tail_distance (PI / 8) ;;
  match alfarange with
  | None => raise TypeError
  | Some (lo, hi) =>
    alfamin <- ternarySearch fuel tail_distance lo hi bone_fk (1 / 10) ;;
    bone_ik <- get ;;
    let rot_mod := rotation_mode bone_ik in
    (if decide (rot_mod <> AXIS_ANGLE)
     then assign_rotation_mode AXIS_ANGLE else ret tt) ;;
    assign_angle alfamin ;;
    assign_rotation_mode rot_mod
  end.

(** ** IK/FK snapping functions *)

(** [ploc] of [set_pole]: the pole location in armature space. *)
Definition pole_location (a ikv pvi : Vector) : Vector :=
  vadd (vadd a (vdiv ikv 2)) pvi.

(** The local function [set_pole] of [match_pole_target], closed over [a]
    and [ikv]; the state is the pole bone. *)
Definition set_pole (a ikv pvi : Vector) : M unit :=
  let ploc := pole_location a ikv pvi in
  pole <- get ;;
  mat <- lift (get_pose_matrix_in_other_space (Translation ploc) pole) ;;
  set_pose_translation mat.

(** [Matrix.Rotation(angle, 4, axis) * v] *)
Definition rotated (angle : R) (axis v : Vector) : Vector :=
  let m := Rotation h angle axis in
  vec3 (entry m I0 I0 * vx v + entry m I0 I1 * vy v + entry m I0 I2 * vz v
        + entry m I0 I3)
       (entry m I1 I0 * vx v + entry m I1 I1 * vy v + entry m I1 I2 * vz v
        + entry m I1 I3)
       (entry m I2 I0 * vx v + entry m I2 I1 * vy v + entry m I2 I2 * vz v
        + entry m I2 I3).

(** [ik_first.matrix] as the pose evaluation gives it for the current pole. *)
Definition ik_first_matrix (ik_first : PoseBone) : M Matrix :=
  pole <- get ;; ret (ik_solve h pole ik_first).

Definition chain_vector (ik_first ik_last : PoseBone) : Vector :=
  let a := to_translation (matrix ik_first) in
  let b := vadd (to_translation (matrix ik_last)) (vector ik_last) in
  vsub b a.

Definition pole_offset (ikv : Vector) (length : R) : Vector :=
  vscale (normalized (perpendicular_vector ikv)) length.

Definition match_pole_target (ik_first ik_last match_bone : PoseBone)
    (length : R) : M unit :=
  let a := to_translation (matrix ik_first) in
  let ikv := chain_vector ik_first ik_last in
  let pv := pole_offset ikv length in
  set_pole a ikv pv ;;
  m <- ik_first_matrix ik_first ;;
  let angle := rotation_difference m (matrix match_bone) in
  let pv1 := rotated angle ikv pv in
  set_pole a ikv pv1 ;;
  m1 <- ik_first_matrix ik_first ;;
  let ang1 := rotation_difference m1 (matrix match_bone) in
  let pv2 := rotated (- angle) ikv pv in
  set_pole a ikv pv2 ;;
  m2 <- ik_first_matrix ik_first ;;
  let ang2 := rotation_difference m2 (matrix match_bone) in
  if Rlt_dec ang1 ang2 then set_pole a ikv pv1 else ret tt.

End WithHost.

(** [key in bone.keys()] *)
Definition has_key (key : string) (b : PoseBone) : bool :=
  bool_decide (is_Some (props b !! key)).

(** The "Stretch" step that opens the pole branch of [ik2fk_leg]; the
    state is [footi]. *)
Definition ik2fk_leg_stretch (thigh : PoseBone) : M unit :=
  footi <- get ;;
  if has_key "stretch_lenght" footi && has_key "stretch_lenght" thigh
  then
    match props thigh !! "stretch_length" with
    | Some v => modify (fun b => with_props (<["stretch_length" := v]> (props b)) b)
    | None => raise KeyError
    end
  else ret tt.

(** ** Vocabulary of the statements *)

(** World-space reconstruction as the specification words it:
    [parentPose * parentRest^-1 * rest * localMatrix], with both parent
    matrices read as the identity for a bone without parent. *)
Definition convert_to_world_spec (local : Matrix) (pose_bone : PoseBone)
    : outcome Matrix :=
  let rest := matrix_local (bone pose_bone) in
  match parent pose_bone with
  | Some p =>
    match inverted_or_raise (matrix_local (bone p)) with
    | Returns par_rest_inv =>
      Returns (mmul (mmul (mmul (matrix p) par_rest_inv) rest) local)
    | Raises e => Raises e
    | OutOfFuel => OutOfFuel
    end
  | None =>
    Returns (mmul (mmul (mmul Matrix_identity Matrix_identity) rest) local)
  end.

Definition invertible (m : Matrix) : Prop := determinant m <> 0.

(** The parent's pose matrix of a bone is invertible (nothing is asked of a
    bone without parent). *)
Definition parent_pose_invertible (pose_bone : PoseBone) : Prop :=
  match parent pose_bone with
  | Some p => invertible (matrix p)
  | None => True
  end.

(** The angle the bracket scan visits after [k] increments. *)
Fixpoint scan_angle (start delta : R) (k : nat) : R :=
  match k with
  | O => start
  | S k' => scan_angle (start + delta) delta k'
  end.

(** The test [min((l_dist, c_dist, r_dist)) == c_dist] on an objective
    whose value at an angle is [g]. *)
Definition center_is_min (g : R -> R) (delta a : R) : Prop :=
  g a <= g (a - delta) /\ g a <= g (a + delta).

(** The center sample is the unique minimum of the three. *)
Definition center_is_strict_min (g : R -> R) (delta a : R) : Prop :=
  g a < g (a - delta) /\ g a < g (a + delta).

(** Against the reference bone [bone_fk], [f] returns [g angle] whatever
    the state of the bone it is given (it may still write to that bone). *)
Definition valued (f : Objective) (bone_fk : PoseBone) (g : R -> R) : Prop :=
  forall a s, exists s', f a bone_fk s = (Returns (g a), s').

(** [f] hands the bone back in the rotation mode it received it in. *)
Definition mode_preserving (f : Objective) : Prop :=
  forall a fk s o s', f a fk s = (o, s') -> rotation_mode s' = rotation_mode s.

(** The loop condition of the bracket scan. *)
Definition in_window (start a : R) : Prop :=
  a > start - 2 * PI /\ a < start + 2 * PI.

(** Parent matrices as the converter reads them. *)
Definition parent_pose (pose_bone : PoseBone) : Matrix :=
  match parent pose_bone with
  | Some p => matrix p
  | None => Matrix_identity
  end.
Definition parent_rest (pose_bone : PoseBone) : Matrix :=
  match parent pose_bone with
  | Some p => matrix_local (bone p)
  | None => Matrix_identity
  end.

Definition is_inverse (mi m : Matrix) : Prop :=
  mmul mi m = Matrix_identity /\ mmul m mi = Matrix_identity.

(** A side-effect-free objective. *)
Definition pure_objective (g : R -> R) : Objective := fun a _ => ret (g a).

(** The synthetic quadratic [f(x) = (x - x0)^2]. *)
Definition quadratic (x0 : R) : Objective :=
  pure_objective (fun x => (x - x0) * (x - x0)).

(** Re-assigning the mode a bone already has leaves its angle alone. *)
Definition same_mode_keeps_angle (h : Host) : Prop :=
  forall b,
    aa_angle (rotation_axis_angle (rotation_mode_changed h (rotation_mode b) b))
    = aa_angle (rotation_axis_angle b).

(** [g] strictly decreases up to [x0] and strictly increases from it on
    [lo, hi]. *)
Definition unimodal (g : R -> R) (x0 lo hi : R) : Prop :=
  (forall x y, lo <= x -> x < y -> y <= x0 -> g x > g y)
  /\ (forall x y, x0 <= x -> x < y -> y <= hi -> g x < g y).

(** The bone as [tail_distance] measures it: switched to axis-angle if it
    was not, the angle written, the pose re-evaluated. *)
Definition tail_distance_probe (h : Host) (angle : R) (s : PoseBone) : PoseBone :=
  let s1 := if decide (rotation_mode s <> AXIS_ANGLE)
            then with_rotation_mode AXIS_ANGLE
                   (rotation_mode_changed h AXIS_ANGLE s)
            else s in
  let s2 := with_angle angle s1 in
  with_tail (evaluated_tail h s2) s2.

(** The location [set_pole] writes; it reads only the rest data and the
    parent of the pole bone. *)
Definition placed_location (h : Host) (a ikv pvi : Vector) (pole : PoseBone)
    : outcome Vector :=
  match get_pose_matrix_in_other_space
          (Translation (pole_location a ikv pvi)) pole with
  | Returns mat =>
    if use_local_location (bone pole) then Returns (to_translation mat)
    else
      match inverted_or_raise
              (match bone_parent (bone pole) with
               | Some pb => matrix_local pb
               | None => Matrix_identity
               end) with
      | Returns pri =>
        Returns (quaternion_rotate h
                   (to_quaternion h (mmul pri (matrix_local (bone pole))))
                   (to_translation mat))
      | Raises e => Raises e
      | OutOfFuel => OutOfFuel
      end
  | Raises e => Raises e
  | OutOfFuel => OutOfFuel
  end.

(** ** A reference host

    A concrete host on which the statements are instantiated: quaternions
    are extracted by the trace formula and normalised, rotations about an
    axis follow Rodrigues' formula, assigning a rotation mode re-encodes
    nothing, and the evaluated tail of a bone slides along X with its
    angle. *)

Definition qnormalized (q : Quaternion) : Quaternion :=
  let n := sqrt (qdot q q) in
  if Req_dec_T n 0 then quat 1 0 0 0
  else quat (qw q / n) (qx q / n) (qy q / n) (qz q / n).

Definition sign_of (x : R) : R := if Rlt_dec x 0 then -1 else 1.

Definition quaternion_of_matrix (m : Matrix) : Quaternion :=
  let m00 := entry m I0 I0 in
  let m11 := entry m I1 I1 in
  let m22 := entry m I2 I2 in
  qnormalized
    (quat (sqrt (Rmax 0 (1 + m00 + m11 + m22)) / 2)
          (sign_of (entry m I2 I1 - entry m I1 I2)
           * sqrt (Rmax 0 (1 + m00 - m11 - m22)) / 2)
          (sign_of (entry m I0 I2 - entry m I2 I0)
           * sqrt (Rmax 0 (1 - m00 + m11 - m22)) / 2)
          (sign_of (entry m I1 I0 - entry m I0 I1)
           * sqrt (Rmax 0 (1 - m00 - m11 + m22)) / 2)).

Definition rotation_about (angle : R) (axis : Vector) : Matrix :=
  let k := normalized axis in
  let c := cos angle in
  let s := sin angle in
  let t := 1 - c in
  mat4 (row4 (c + t * vx k * vx k) (t * vx k * vy k - s * vz k)
             (t * vx k * vz k + s * vy k) 0)
       (row4 (t * vy k * vx k + s * vz k) (c + t * vy k * vy k)
             (t * vy k * vz k - s * vx k) 0)
       (row4 (t * vz k * vx k - s * vy k) (t * vz k * vy k + s * vx k)
             (c + t * vz k * vz k) 0)
       (row4 0 0 0 1).

Definition rotate_by_quaternion (q : Quaternion) (v : Vector) : Vector :=
  let u := vec3 (qx q) (qy q) (qz q) in
  let uv := cross u v in
  vadd v (vadd (vscale uv (2 * qw q)) (vscale (cross u uv) 2)).

Definition reference_host : Host :=
  mkHost quaternion_of_matrix rotation_about rotate_by_quaternion
         (fun _ b => b)
         (fun b => vec3 (aa_angle (rotation_axis_angle b)) 0 0)
         (fun pole _ => Translation (location pole)).

Definition rest_bone : Bone := mkBone Matrix_identity true None.

(** A bone at rest, unparented, with the given pose matrix, rotation mode
    and angle. *)
Definition sample_bone (m : Matrix) (mode : RotMode) (angle : R) : PoseBone :=
  mkPoseBone rest_bone None m vzero vzero vzero mode
             (axis_angle angle (vec3 0 1 0)) ∅.

(** A reference bone whose tail sits at -10 on the X axis. *)
Definition far_bone : PoseBone :=
  with_tail (vec3 (-10) 0 0) (sample_bone Matrix_identity QUATERNION 0).

(** The tail distance the reference host measures against [far_bone]. *)
Definition far_distance (a : R) : R :=
  vlength (vsub (vec3 (-10) 0 0) (vec3 a 0 0)).

(** An objective with its only minimum at -pi/2, below a scan that
    starts at 0. *)
Definition shifted_abs (x : R) : R := Rabs (x + PI / 2).

(** A parented bone: rest and parent matrices are translations. *)
Definition parent_sample : PoseBone :=
  mkPoseBone (mkBone (Translation (vec3 0 0 1)) true None) None
             (Translation (vec3 1 0 0)) vzero vzero vzero QUATERNION
             (axis_angle 0 (vec3 0 1 0)) ∅.
Definition child_sample : PoseBone :=
  mkPoseBone (mkBone (Translation (vec3 0 1 0)) true (Some (bone parent_sample)))
             (Some parent_sample) Matrix_identity vzero vzero vzero QUATERNION
             (axis_angle 0 (vec3 0 1 0)) ∅.

(** The chain of the pole placement scenario: the first bone has its
    head at the origin, the last bone its head at (1,0,0) and direction
    (1,0,0). *)
Definition chain_start : PoseBone :=
  sample_bone (Translation (vec3 0 0 0)) QUATERNION 0.
Definition chain_end : PoseBone :=
  mkPoseBone rest_bone None (Translation (vec3 1 0 0)) (vec3 2 0 0)
             (vec3 1 0 0) vzero QUATERNION (axis_angle 0 (vec3 0 1 0)) ∅.

(** Two legs: a current rig with the well-spelled key only, and a legacy
    rig that also carries the misspelled one. *)
Definition current_foot : PoseBone :=
  with_props {[ "stretch_length" := 1 ]} (sample_bone Matrix_identity QUATERNION 0).
Definition current_thigh : PoseBone :=
  with_props {[ "stretch_length" := 2 ]} (sample_bone Matrix_identity QUATERNION 0).
Definition legacy_foot : PoseBone :=
  with_props (<[ "stretch_lenght" := 1 ]> {[ "stretch_length" := 1 ]})
             (sample_bone Matrix_identity QUATERNION 0).
Definition legacy_thigh : PoseBone :=
  with_props (<[ "stretch_lenght" := 2 ]> {[ "stretch_length" := 2 ]})
             (sample_bone Matrix_identity QUATERNION 0).

(** ** Further code: definitions *)

(** [get_local_pose_matrix(pose_bone)] *)
Definition get_local_pose_matrix (pose_bone : PoseBone) : outcome Matrix :=
  get_pose_matrix_in_other_space (matrix pose_bone) pose_bone.

(** How the legacy "Stretch" block of [fk2ik_arm] and [fk2ik_leg] ends:
    it is skipped when the IK end bone has no [auto_stretch] key, it
    completes, or it stops on a missing key or on a division by zero. *)
Inductive stretch_exit :=
| NotLegacy
| StretchDone
| StretchKeyError
| StretchZeroDivisionError.

(** The "Stretch" block of [fk2ik_arm] ([fk2ik_leg] has the same block on
    thigh, shin and foot): [uarm] is the bone written, the others are
    read. *)
Definition fk2ik_arm_stretch (uarm farm uarmi farmi handi : PoseBone)
    : stretch_exit * PoseBone :=
  match props handi !! "auto_stretch" with
  | None => (NotLegacy, uarm)
  | Some auto_stretch =>
    if Req_dec_T auto_stretch 0 then
      match props handi !! "stretch_length" with
      | Some v => (StretchDone, with_props (<["stretch_length" := v]> (props uarm)) uarm)
      | None => (StretchKeyError, uarm)
      end
    else
      let den := vlength (vector uarm) + vlength (vector farm) in
      if Req_dec_T den 0 then (StretchZeroDivisionError, uarm)
      else
        let diff := (vlength (vector uarmi) + vlength (vector farmi)) / den in
        match props uarm !! "stretch_length" with
        | Some v =>
          (StretchDone,
           with_props (<["stretch_length" := v * diff]> (props uarm)) uarm)
        | None => (StretchKeyError, uarm)
        end
  end.

(** [names] as [is_selected] receives it: a list of names or one name. *)
Inductive Names := NameList (l : list string) | Name (n : string).

(** [name in selected_bones] *)
Definition name_in (n : string) (selected_bones : list string) : bool :=
  bool_decide (n ∈ selected_bones).

(** The [for] loop of [is_selected], with its early [return True]. *)
Fixpoint is_selected_loop (selected_bones names : list string) : bool :=
  match names with
  | [] => false
  | name :: rest =>
    if name_in name selected_bones then true
    else is_selected_loop selected_bones rest
  end.

(** The local function [is_selected] of [RigUI.draw]. *)
Definition is_selected (selected_bones : list string) (names : Names) : bool :=
  match names with
  | NameList l => is_selected_loop selected_bones l
  | Name n => if name_in n selected_bones then true else false
  end.

(** [selected_bones] as [RigUI.draw] builds it: the names of the selected
    pose bones followed by the name of the active pose bone. *)
Definition selected_names (selected : list string) (active : string)
    : list string :=
  selected ++ [active].

(** A child bone that sits on its rest position under [parent_sample]. *)
Definition resting_child : PoseBone :=
  mkPoseBone (mkBone (Translation (vec3 0 1 0)) true (Some (bone parent_sample)))
             (Some parent_sample)
             (mmul (Translation (vec3 1 0 0))
                   (mmul (Translation (vec3 0 0 (-1))) (Translation (vec3 0 1 0))))
             vzero vzero vzero QUATERNION (axis_angle 0 (vec3 0 1 0)) ∅.

(** What [Matrix.Rotation(angle, 4, axis) * v] is for a proper axis: [v]
    turned about [axis], its length and its component along the axis
    kept. *)
Definition rotation_about_axis (h : Host) : Prop :=
  forall angle axis v,
    axis <> vzero ->
    vlength (rotated h angle axis v) = vlength v
    /\ vdot (rotated h angle axis v) axis = vdot v axis.



(** [f] always returns a value against [bone_fk] (it may write to the
    bone it is given). *)
Definition returning (f : Objective) (bone_fk : PoseBone) : Prop :=
  forall a s, exists v s', f a bone_fk s = (Returns v, s').

(** The distance the reference host measures from a reference bone
    [bone_fk] when the angle is [a]. *)
Definition reference_distance (bone_fk : PoseBone) (a : R) : R :=
  vlength (vsub (tail bone_fk) (vec3 a 0 0)).

(** A reference bone with its tail at the origin, and a joint in
    axis-angle mode at angle 0. *)
Definition origin_bone : PoseBone := sample_bone Matrix_identity QUATERNION 0.
Definition axis_angle_joint : PoseBone := sample_bone Matrix_identity AXIS_ANGLE 0.

(** A legacy arm: FK bones of extent 1 each, IK bones of extent 1.1
    each, auto-stretch switched on. *)
Definition arm_bone (extent : R) (p : gmap string R) : PoseBone :=
  mkPoseBone rest_bone None Matrix_identity vzero (vec3 extent 0 0) vzero
             QUATERNION (axis_angle 0 (vec3 0 1 0)) p.
Definition legacy_uarm : PoseBone := arm_bone 1 {[ "stretch_length" := 1 ]}.
Definition legacy_farm : PoseBone := arm_bone 1 ∅.
Definition legacy_uarmi : PoseBone := arm_bone (11 / 10) ∅.
Definition legacy_farmi : PoseBone := arm_bone (11 / 10) ∅.
Definition legacy_handi : PoseBone :=
  arm_bone 1 (<[ "auto_stretch" := 1 ]> {[ "stretch_length" := 1 ]}).

(** ** Matrix algebra *)

Ltac matrix_crush :=
  cbv [mmul Matrix_identity build sum4 entry col line determinant cofactor
       minor others odd_ix xorb r0 r1 r2 r3 c0 c1 c2 c3].

Lemma mmul_assoc a b c : mmul a (mmul b c) = mmul (mmul a b) c.
Proof.
  destruct a as [[] [] [] []], b as [[] [] [] []], c as [[] [] [] []].
  matrix_crush. f_equal; f_equal; ring.
Qed.

Lemma mmul_1_l m : mmul Matrix_identity m = m.
Proof. destruct m as [[] [] [] []]. matrix_crush. f_equal; f_equal; ring. Qed.

Lemma mmul_1_r m : mmul m Matrix_identity = m.
Proof. destruct m as [[] [] [] []]. matrix_crush. f_equal; f_equal; ring. Qed.

Lemma inverted_Some m :
  invertible m ->
  inverted m = Some (build (fun i j => cofactor m j i / determinant m)).
Proof. unfold invertible, inverted. intros Hd. destruct (Req_dec_T _ _); [lra | reflexivity]. Qed.

Lemma inverted_invertible m mi : inverted m = Some mi -> invertible m.
Proof. unfold invertible, inverted. destruct (Req_dec_T _ _); [discriminate | auto]. Qed.

Lemma inverted_l m mi : inverted m = Some mi -> mmul mi m = Matrix_identity.
Proof.
  unfold inverted. destruct (Req_dec_T _ _) as [|Hd]; [discriminate|].
  intros [= <-]. revert Hd. destruct m as [[] [] [] []].
  matrix_crush. intros Hd. f_equal; f_equal; field; exact Hd.
Qed.

Lemma inverted_r m mi : inverted m = Some mi -> mmul m mi = Matrix_identity.
Proof.
  unfold inverted. destruct (Req_dec_T _ _) as [|Hd]; [discriminate|].
  intros [= <-]. revert Hd. destruct m as [[] [] [] []].
  matrix_crush. intros Hd. f_equal; f_equal; field; exact Hd.
Qed.

Lemma determinant_identity : determinant Matrix_identity = 1.
Proof. matrix_crush. ring. Qed.

Lemma inverted_identity : inverted Matrix_identity = Some Matrix_identity.
Proof.
  rewrite inverted_Some by (unfold invertible; rewrite determinant_identity; lra).
  f_equal. matrix_crush. f_equal; f_equal; field.
Qed.

Lemma inverted_or_raise_Returns m mi :
  inverted_or_raise m = Returns mi <-> inverted m = Some mi.
Proof. unfold inverted_or_raise. destruct (inverted m); split; congruence. Qed.

Lemma inverted_or_raise_singular m :
  determinant m = 0 -> inverted_or_raise m = Raises ValueError.
Proof.
  unfold inverted_or_raise, inverted. intros Hd.
  destruct (Req_dec_T _ _); [reflexivity | contradiction].
Qed.

(** A product is cancelled by the inverse on its left. *)
Lemma mmul_cancel_l m mi x : inverted m = Some mi -> mmul mi (mmul m x) = x.
Proof. intros H. now rewrite mmul_assoc, (inverted_l _ _ H), mmul_1_l. Qed.

Lemma mmul_cancel_r m mi x : inverted m = Some mi -> mmul m (mmul mi x) = x.
Proof. intros H. now rewrite mmul_assoc, (inverted_r _ _ H), mmul_1_l. Qed.

(** ** Space converter *)

Lemma invertible_inverted m : invertible m -> exists mi, inverted m = Some mi.
Proof. intros H. eexists. apply inverted_Some, H. Qed.

Lemma inverted_is_inverse m mi : inverted m = Some mi -> is_inverse mi m.
Proof. intros H. split; [eapply inverted_l | eapply inverted_r]; eauto. Qed.

(** Claim C5.  For a world (armature-space) matrix [mat] and a target bone
    whose rest matrix and parent pose matrix are invertible, the space
    converter returns exactly
    [rest^-1 * (parentRest * (parentPose^-1 * mat))], where both inverses
    are two-sided inverses and where [parentPose] and [parentRest] are the
    identity for a bone without parent. *)
Theorem get_pose_matrix_in_other_space_formula mat pose_bone :
  invertible (matrix_local (bone pose_bone)) ->
  parent_pose_invertible pose_bone ->
  exists rest_inv par_inv,
    is_inverse rest_inv (matrix_local (bone pose_bone))
    /\ is_inverse par_inv (parent_pose pose_bone)
    /\ get_pose_matrix_in_other_space mat pose_bone
       = Returns (mmul rest_inv (mmul (parent_rest pose_bone) (mmul par_inv mat))).
Proof.
  intros Hrest Hpar.
  destruct (invertible_inverted _ Hrest) as [ri Hri].
  unfold get_pose_matrix_in_other_space, parent_pose_invertible, parent_pose,
    parent_rest, inverted_or_raise in *.
  rewrite Hri. destruct (parent pose_bone) as [p|].
  - destruct (invertible_inverted _ Hpar) as [pi Hpi]. rewrite Hpi.
    exists ri, pi. auto using inverted_is_inverse.
  - exists ri, Matrix_identity.
    split; [auto using inverted_is_inverse|].
    split; [split; apply mmul_1_l | reflexivity].
Qed.

(** Claim C4.  For a bone whose rest matrix and parent pose matrix are
    invertible, space conversion round-trips exactly over the reals:
    converting the world-space reconstruction
    [parentPose * parentRest^-1 * rest * M] of a local matrix [M] back to
    local space gives [M], and reconstructing the converter's local result
    for a world matrix [W] gives [W] back. *)
Theorem space_conversion_round_trip pose_bone :
  invertible (matrix_local (bone pose_bone)) ->
  parent_pose_invertible pose_bone ->
  (forall M W, convert_to_world_spec M pose_bone = Returns W ->
               get_pose_matrix_in_other_space W pose_bone = Returns M)
  /\ (forall W L W', get_pose_matrix_in_other_space W pose_bone = Returns L ->
                  convert_to_world_spec L pose_bone = Returns W' -> W' = W).
Proof.
  intros Hrest Hpar.
  destruct (invertible_inverted _ Hrest) as [ri Hri].
  unfold get_pose_matrix_in_other_space, convert_to_world_spec,
    parent_pose_invertible, inverted_or_raise in *.
  rewrite Hri. destruct (parent pose_bone) as [p|].
  - destruct (invertible_inverted _ Hpar) as [pi Hpi]. rewrite Hpi.
    split.
    + intros M W. destruct (inverted (matrix_local (bone p))) as [pri|] eqn:Hpri;
        [|discriminate].
      intros [= <-]. f_equal.
      rewrite <- !mmul_assoc.
      rewrite (mmul_cancel_l _ _ _ Hpi), (mmul_cancel_r _ _ _ Hpri).
      apply (mmul_cancel_l _ _ _ Hri).
    + intros W L W' [= <-].
      destruct (inverted (matrix_local (bone p))) as [pri|] eqn:Hpri;
        [|discriminate].
      intros [= <-]. rewrite <- !mmul_assoc.
      rewrite (mmul_cancel_r _ _ _ Hri), (mmul_cancel_l _ _ _ Hpri).
      apply (mmul_cancel_r _ _ _ Hpi).
  - split.
    + intros M W [= <-]. f_equal. rewrite !mmul_1_l.
      apply (mmul_cancel_l _ _ _ Hri).
    + intros W L W' [= <-] [= <-]. rewrite !mmul_1_l.
      apply (mmul_cancel_r _ _ _ Hri).
Qed.

(** ** Rotation difference *)

Lemma qdot_comm p q : qdot p q = qdot q p.
Proof. unfold qdot. ring. Qed.

Lemma clamp_bounds d : -1 <= Rmin 1 (Rmax (-1) d) <= 1.
Proof.
  unfold Rmin, Rmax.
  destruct (Rle_dec (-1) d); destruct (Rle_dec 1 _); lra.
Qed.

Lemma clamp_one : Rmin 1 (Rmax (-1) 1) = 1.
Proof.
  unfold Rmin, Rmax.
  destruct (Rle_dec (-1) 1); destruct (Rle_dec 1 _); lra.
Qed.

Lemma rotation_difference_range h m1 m2 :
  0 <= rotation_difference h m1 m2 <= PI.
Proof.
  unfold rotation_difference.
  set (c := Rmin 1 _). pose proof (acos_bound c) as Hb.
  destruct (Rgt_dec _ _) as [Hgt|Hle]; lra.
Qed.

(** Claim C9.  The rotation difference is symmetric in its two matrices,
    always lies in [0, pi], and is 0 between a matrix and itself whenever
    that matrix has a unit quaternion (as every rotation matrix has). *)
Theorem rotation_difference_symmetric_bounded h m1 m2 m :
  qdot (to_quaternion h m) (to_quaternion h m) = 1 ->
  rotation_difference h m1 m2 = rotation_difference h m2 m1
  /\ 0 <= rotation_difference h m1 m2 <= PI
  /\ rotation_difference h m m = 0.
Proof.
  intros Hunit. split; [|split].
  - unfold rotation_difference. now rewrite (qdot_comm (to_quaternion h m1)).
  - apply rotation_difference_range.
  - unfold rotation_difference. rewrite Hunit, clamp_one, acos_1.
    pose proof PI_RGT_0. destruct (Rgt_dec _ _); lra.
Qed.

Lemma qnormalized_unit q : qdot (qnormalized q) (qnormalized q) = 1.
Proof.
  unfold qnormalized. destruct (Req_dec_T _ _) as [|Hn].
  - unfold qdot; simpl; ring.
  - assert (Hpos : 0 <= qdot q q).
    { unfold qdot. nra. }
    pose proof (sqrt_sqrt _ Hpos) as Hs.
    set (n := sqrt (qdot q q)) in *.
    unfold qdot at 1; simpl.
    unfold qdot in Hs. field_simplify_eq; [|exact Hn]. nra.
Qed.

Lemma det_Translation v : determinant (Translation v) = 1.
Proof. unfold Translation. matrix_crush. ring. Qed.

(** ** Perpendicular offset *)

Lemma vdot_self_nonneg v : 0 <= vdot v v.
Proof. unfold vdot. nra. Qed.

Lemma vdot_self_zero v : vdot v v = 0 -> v = vzero.
Proof.
  destruct v as [x y z]. unfold vdot, vzero; simpl. intros H.
  f_equal; nra.
Qed.

Lemma vlength_pos v : v <> vzero -> 0 < vlength v.
Proof.
  intros Hv. unfold vlength. apply sqrt_lt_R0.
  pose proof (vdot_self_nonneg v).
  destruct (Req_dec (vdot v v) 0) as [H0|]; [|lra].
  now apply vdot_self_zero in H0.
Qed.

Lemma vlength_normalized v : v <> vzero -> vlength (normalized v) = 1.
Proof.
  intros Hv. pose proof (vlength_pos v Hv) as Hpos.
  unfold normalized. destruct (Req_dec_T _ _) as [|_]; [lra|].
  unfold vlength at 1.
  replace (vdot (vdiv v (vlength v)) (vdiv v (vlength v))) with 1;
    [apply sqrt_1|].
  pose proof (sqrt_sqrt _ (vdot_self_nonneg v)) as Hs.
  fold (vlength v) in Hs. revert Hs Hpos.
  generalize (vlength v) as len. intros len Hs Hpos.
  unfold vdot in *. destruct v as [x y z]; simpl in *.
  field_simplify_eq; [|lra]. nra.
Qed.

Lemma vlength_vscale v s : vlength (vscale v s) = vlength v * Rabs s.
Proof.
  unfold vlength.
  replace (vdot (vscale v s) (vscale v s)) with (vdot v v * Rsqr s)
    by (unfold vdot, vscale, Rsqr; simpl; ring).
  rewrite sqrt_mult; [|apply vdot_self_nonneg|apply Rle_0_sqr].
  now rewrite sqrt_Rsqr_abs.
Qed.

Lemma perpendicular_vector_orthogonal v : vdot (perpendicular_vector v) v = 0.
Proof.
  unfold perpendicular_vector.
  destruct (Rlt_dec _ _); unfold vdot, cross; simpl; ring.
Qed.

Lemma perpendicular_vector_nonzero v :
  v <> vzero -> perpendicular_vector v <> vzero.
Proof.
  intros Hv Hc. apply Hv. destruct v as [x y z].
  unfold perpendicular_vector, cross, vzero in *; simpl in *.
  destruct (Rlt_dec _ _) as [Hlt|Hge]; injection Hc as H1 H2 H3.
  - assert (y = 0) by lra. subst y. rewrite Rabs_R0 in Hlt.
    pose proof (Rabs_pos x). lra.
  - assert (x = 0) by lra. assert (z = 0) by lra. subst x z.
    rewrite Rabs_R0 in Hge. pose proof (Rabs_pos y).
    assert (Rabs y = 0) by lra.
    destruct (Req_dec y 0) as [->|Hy]; [reflexivity|].
    apply Rabs_no_R0 in Hy. contradiction.
Qed.

Lemma vdot_normalized u v : vdot u v = 0 -> vdot (normalized u) v = 0.
Proof.
  intros H. unfold normalized. destruct (Req_dec_T _ _) as [|Hn]; [exact H|].
  unfold vdot, vdiv in *; simpl. field_simplify_eq; [|exact Hn]. nra.
Qed.

Lemma vdot_vscale u s v : vdot (vscale u s) v = vdot u v * s.
Proof. unfold vdot, vscale; simpl. ring. Qed.

Lemma vsub_pole_location a ikv pv :
  vsub (pole_location a ikv pv) (vadd a (vdiv ikv 2)) = pv.
Proof.
  destruct a, ikv, pv. unfold pole_location, vsub, vadd, vdiv; simpl.
  f_equal; field.
Qed.

(** Claim C8.  For a chain whose vector [ikv] (head of the first bone to
    tail of the last) is nonzero, the helper axis picked by
    [perpendicular_vector] is never parallel to [ikv]: the cross product is
    nonzero, the normalised and scaled offset is orthogonal to [ikv] and has
    magnitude [|length|], so the pole location [a + ikv/2 + offset] lies in
    the plane through the chain midpoint perpendicular to [ikv], at
    distance exactly [length] from the midpoint for a length that is a
    distance (non-negative). *)
Theorem pole_offset_perpendicular_at_length ik_first ik_last length :
  let a := to_translation (matrix ik_first) in
  let ikv := chain_vector ik_first ik_last in
  let pv := pole_offset ikv length in
  let ploc := pole_location a ikv pv in
  let mid := vadd a (vdiv ikv 2) in
  ikv <> vzero ->
  perpendicular_vector ikv <> vzero
  /\ vdot pv ikv = 0
  /\ vlength pv = Rabs length
  /\ vlength (vsub ploc mid) = Rabs length
  /\ vdot (vsub ploc mid) ikv = 0
  /\ (0 <= length -> vlength pv = length /\ vlength (vsub ploc mid) = length).
Proof.
  intros a ikv pv ploc mid Hv.
  assert (Hperp : perpendicular_vector ikv <> vzero)
    by now apply perpendicular_vector_nonzero.
  assert (Hdot : vdot pv ikv = 0).
  { unfold pv, pole_offset. rewrite vdot_vscale.
    rewrite (vdot_normalized _ _ (perpendicular_vector_orthogonal ikv)). ring. }
  assert (Hl : vlength pv = Rabs length).
  { unfold pv, pole_offset. rewrite vlength_vscale.
    rewrite vlength_normalized by exact Hperp. ring. }
  unfold ploc, mid. rewrite vsub_pole_location.
  repeat (split; [assumption|]).
  intros Hlen. rewrite Hl, Rabs_pos_eq by exact Hlen. auto.
Qed.

(** ** The monad *)

Lemma bind_Returns {A B} (c : M A) (k : A -> M B) s a s' :
  c s = (Returns a, s') -> bind c k s = k a s'.
Proof. unfold bind. now intros ->. Qed.

Lemma bind_inv_Returns {A B} (c : M A) (k : A -> M B) s b s2 :
  bind c k s = (Returns b, s2) ->
  exists a s1, c s = (Returns a, s1) /\ k a s1 = (Returns b, s2).
Proof.
  unfold bind. destruct (c s) as [[a| |] s1]; try discriminate. eauto.
Qed.

(** ** Bracket scan *)

Lemma min_is_center l c r :
  Rmin (Rmin l c) r = c <-> c <= l /\ c <= r.
Proof.
  unfold Rmin. destruct (Rle_dec l c); destruct (Rle_dec _ r); lra.
Qed.

Lemma window_test start a :
  bool_decide (a > start - 2 * PI) && bool_decide (a < start + 2 * PI) = true
  <-> in_window start a.
Proof.
  unfold in_window. rewrite andb_true_iff, !bool_decide_eq_true. tauto.
Qed.

Lemma scan_angle_S start delta k :
  scan_angle start delta (S k) = scan_angle start delta k + delta.
Proof.
  revert start. induction k as [|k IH]; intros start; [reflexivity|].
  change (scan_angle (start + delta) delta (S k)
          = scan_angle (start + delta) delta k + delta).
  apply IH.
Qed.

Lemma scan_angle_INR start delta k :
  scan_angle start delta k = start + INR k * delta.
Proof.
  induction k as [|k IH]; [simpl; ring|].
  rewrite scan_angle_S, IH, S_INR. ring.
Qed.

Lemma in_window_eighth start k :
  in_window start (scan_angle start (PI / 8) k) <-> (k < 16)%nat.
Proof.
  unfold in_window. rewrite scan_angle_INR.
  pose proof PI_RGT_0 as Hpi. pose proof (pos_INR k) as Hk.
  split.
  - intros [_ Hlt]. apply INR_lt.
    replace (INR 16) with 16 by (simpl; lra). nra.
  - intros Hlt. apply lt_INR in Hlt.
    replace (INR 16) with 16 in Hlt by (simpl; lra). split; nra.
Qed.

Section Scan.
Variable h : Host.
Variables (f : Objective) (g : R -> R) (delta : R) (bone_fk : PoseBone).
Variables (rot_mod : RotMode) (start : R).
Hypothesis f_valued : valued f bone_fk g.

Lemma scan_iteration fuel a s :
  in_window start a ->
  exists s',
    find_min_range_loop h (S fuel) f delta bone_fk rot_mod start a s
    = if Req_dec_T (Rmin (Rmin (g (a - delta)) (g a)) (g (a + delta))) (g a)
      then (Returns (Some (a - delta, a + delta)),
            with_rotation_mode rot_mod (rotation_mode_changed h rot_mod s'))
      else find_min_range_loop h fuel f delta bone_fk rot_mod start
                               (a + delta) s'.
Proof using f_valued.
  intros Hw. apply window_test in Hw. simpl. rewrite Hw.
  destruct (f_valued (a - delta) s) as [s1 E1].
  destruct (f_valued a s1) as [s2 E2].
  destruct (f_valued (a + delta) s2) as [s3 E3].
  exists s3.
  rewrite (bind_Returns _ _ _ _ _ E1), (bind_Returns _ _ _ _ _ E2),
    (bind_Returns _ _ _ _ _ E3).
  destruct (Req_dec_T _ _); reflexivity.
Qed.

Lemma scan_found k : forall fuel a s,
  (k < fuel)%nat ->
  (forall j, (j <= k)%nat -> in_window start (scan_angle a delta j)) ->
  (forall j, (j < k)%nat -> ~ center_is_min g delta (scan_angle a delta j)) ->
  center_is_min g delta (scan_angle a delta k) ->
  fst (find_min_range_loop h fuel f delta bone_fk rot_mod start a s)
  = Returns (Some (scan_angle a delta k - delta, scan_angle a delta k + delta)).
Proof using f_valued.
  induction k as [|k IH]; intros fuel a s Hfuel Hwin Hnot Hmin;
    (destruct fuel as [|fuel]; [lia|]);
    destruct (scan_iteration fuel a s (Hwin 0%nat ltac:(lia))) as [s' ->].
  - simpl in Hmin. apply min_is_center in Hmin.
    destruct (Req_dec_T _ _); [reflexivity | contradiction].
  - destruct (Req_dec_T _ _) as [E|_].
    + apply min_is_center in E. exfalso. apply (Hnot 0%nat); [lia | exact E].
    + apply IH; [lia | | | exact Hmin].
      * intros j Hj. apply (Hwin (S j)). lia.
      * intros j Hj. apply (Hnot (S j)). lia.
Qed.

Lemma scan_exhausted n : forall fuel a s,
  (n < fuel)%nat ->
  (forall j, (j < n)%nat -> in_window start (scan_angle a delta j)) ->
  ~ in_window start (scan_angle a delta n) ->
  (forall j, (j < n)%nat -> ~ center_is_min g delta (scan_angle a delta j)) ->
  fst (find_min_range_loop h fuel f delta bone_fk rot_mod start a s)
  = Returns None.
Proof using f_valued.
  induction n as [|n IH]; intros fuel a s Hfuel Hwin Hout Hnot;
    (destruct fuel as [|fuel]; [lia|]).
  - simpl in *. rewrite <- window_test in Hout.
    destruct (_ && _); [contradiction|reflexivity].
  - destruct (scan_iteration fuel a s (Hwin 0%nat ltac:(lia))) as [s' ->].
    destruct (Req_dec_T _ _) as [E|_].
    + apply min_is_center in E. exfalso. apply (Hnot 0%nat); [lia | exact E].
    + apply IH; [lia | | exact Hout |].
      * intros j Hj. apply (Hwin (S j)). lia.
      * intros j Hj. apply (Hnot (S j)). lia.
Qed.

End Scan.

Lemma find_min_range_unfold h fuel fk f delta s :
  find_min_range h fuel fk f delta s
  = let s0 := snd (find_min_range_entry h s) in
    let start := aa_angle (rotation_axis_angle s0) in
    find_min_range_loop h fuel f delta fk (rotation_mode s) start start s0.
Proof.
  unfold find_min_range, find_min_range_entry, bind, get, assign_rotation_mode,
    modify, ret.
  destruct (decide _); reflexivity.
Qed.

(** Claim C1, as amended.  With step [delta = pi/8] and an objective whose
    value depends on the angle only, the bracket search samples the
    objective at [angle - delta], [angle], [angle + delta] for
    [angle = start + k * delta], k = 0, 1, ..., 15, in increasing order
    only: every scanned angle lies in [start, start + 2 pi), none below the
    starting angle.  It returns the bracket [a - delta, a + delta] for the
    first scanned angle [a] whose center sample is less than or equal to
    both other samples (ties count), and no bracket when no scanned angle
    qualifies; seventeen tests of the loop condition always suffice. *)
Theorem find_min_range_scans_upward h fk f g s extra :
  let start := aa_angle (rotation_axis_angle (snd (find_min_range_entry h s))) in
  let delta := PI / 8 in
  let result := fst (find_min_range h (17 + extra) fk f delta s) in
  valued f fk g ->
  (forall k, (k < 16)%nat ->
     center_is_min g delta (scan_angle start delta k) ->
     (forall j, (j < k)%nat -> ~ center_is_min g delta (scan_angle start delta j)) ->
     result = Returns (Some (scan_angle start delta k - delta,
                             scan_angle start delta k + delta)))
  /\ ((forall k, (k < 16)%nat -> ~ center_is_min g delta (scan_angle start delta k)) ->
      result = Returns None)
  /\ (forall k, scan_angle start delta k = start + INR k * delta
                /\ ((k < 16)%nat -> start <= scan_angle start delta k < start + 2 * PI)).
Proof.
  intros start delta result Hval. subst result.
  rewrite find_min_range_unfold. cbv zeta. fold start.
  split; [|split].
  - intros k Hk Hmin Hfirst.
    apply (scan_found h f g delta fk _ start Hval k); auto; [lia|].
    intros j Hj. apply in_window_eighth. lia.
  - intros Hnone.
    apply (scan_exhausted h f g delta fk _ start Hval 16); auto; [lia| |].
    + intros j Hj. now apply in_window_eighth.
    + intros Hw. apply (in_window_eighth start 16) in Hw. lia.
  - intros k. split; [apply scan_angle_INR|].
    intros Hk. apply (in_window_eighth start) in Hk. destruct Hk as [_ Hk].
    split; [|exact Hk]. rewrite scan_angle_INR.
    pose proof PI_RGT_0. pose proof (pos_INR k). unfold delta. nra.
Qed.

Lemma valued_pure_objective g fk : valued (pure_objective g) fk g.
Proof. intros a s. exists s. reflexivity. Qed.

Lemma mode_preserving_pure g : mode_preserving (pure_objective g).
Proof. intros a fk s o s' [= _ <-]. reflexivity. Qed.

(** *** What one evaluation of [tail_distance] does to the bone *)

Lemma tail_distance_run h angle fk s :
  tail_distance h angle fk s
  = (Returns (vlength (vsub (tail fk) (tail (tail_distance_probe h angle s)))),
     with_rotation_mode (rotation_mode s)
       (rotation_mode_changed h (rotation_mode s)
          (tail_distance_probe h angle s))).
Proof.
  unfold tail_distance, tail_distance_probe, bind, get, assign_rotation_mode,
    assign_angle, scene_update, modify, ret.
  destruct (decide _); reflexivity.
Qed.

Lemma tail_distance_restores_mode h angle fk s :
  exists v s', tail_distance h angle fk s = (Returns v, s')
               /\ rotation_mode s' = rotation_mode s.
Proof. rewrite tail_distance_run. eauto. Qed.

Lemma mode_preserving_tail_distance h : mode_preserving (tail_distance h).
Proof.
  intros a fk s o s'. rewrite tail_distance_run. now intros [= _ <-].
Qed.

Lemma tail_distance_angle h angle fk s :
  same_mode_keeps_angle h ->
  rotation_mode s = AXIS_ANGLE ->
  exists v s', tail_distance h angle fk s = (Returns v, s')
               /\ rotation_mode s' = AXIS_ANGLE
               /\ aa_angle (rotation_axis_angle s') = angle.
Proof.
  intros Hkeep Hmode. rewrite tail_distance_run.
  eexists _, _. split; [reflexivity|]. split; [exact Hmode|].
  unfold tail_distance_probe. rewrite Hmode.
  destruct (decide _) as [Hne|_]; [congruence|].
  set (s3 := with_tail _ _).
  specialize (Hkeep s3).
  replace (rotation_mode s3) with AXIS_ANGLE in Hkeep by (symmetry; exact Hmode).
  simpl. exact Hkeep.
Qed.

(** *** Exits of the scan and the rotation mode *)

Lemma assign_then_ret h m (br : option (R * R)) s :
  (assign_rotation_mode h m ;; ret br) s
  = (Returns br, with_rotation_mode m (rotation_mode_changed h m s)).
Proof. reflexivity. Qed.

Lemma scan_None_keeps_mode h f delta fk rot start :
  mode_preserving f ->
  forall fuel a s s',
    find_min_range_loop h fuel f delta fk rot start a s = (Returns None, s') ->
    rotation_mode s' = rotation_mode s.
Proof.
  intros Hf. induction fuel as [|fuel IH]; intros a s s'; [discriminate|].
  simpl. destruct (_ && _); [|now intros [= <-]].
  intros H. apply bind_inv_Returns in H as (l & s1 & E1 & H).
  apply bind_inv_Returns in H as (c & s2 & E2 & H).
  apply bind_inv_Returns in H as (r & s3 & E3 & H).
  apply Hf in E1, E2, E3.
  destruct (Req_dec_T _ _).
  - rewrite assign_then_ret in H. discriminate.
  - apply IH in H. congruence.
Qed.

Lemma scan_Some_sets_mode h f delta fk rot start :
  forall fuel a s br s',
    find_min_range_loop h fuel f delta fk rot start a s
    = (Returns (Some br), s') ->
    rotation_mode s' = rot.
Proof.
  induction fuel as [|fuel IH]; intros a s br s'; [discriminate|].
  simpl. destruct (_ && _); [|discriminate].
  intros H. apply bind_inv_Returns in H as (l & s1 & E1 & H).
  apply bind_inv_Returns in H as (c & s2 & E2 & H).
  apply bind_inv_Returns in H as (r & s3 & E3 & H).
  destruct (Req_dec_T _ _).
  - rewrite assign_then_ret in H. now injection H as _ <-.
  - now apply IH in H.
Qed.

Lemma find_min_range_entry_mode h s :
  rotation_mode (snd (find_min_range_entry h s)) = AXIS_ANGLE.
Proof.
  unfold find_min_range_entry, bind, get, assign_rotation_mode, modify, ret.
  destruct (decide _) as [Hne|He]; simpl; [reflexivity|].
  destruct (decide (rotation_mode s = AXIS_ANGLE)); [assumption|contradiction].
Qed.

Lemma find_min_range_found_restores_mode h fuel fk f delta s br s' :
  find_min_range h fuel fk f delta s = (Returns (Some br), s') ->
  rotation_mode s' = rotation_mode s.
Proof.
  rewrite find_min_range_unfold. cbv zeta. apply scan_Some_sets_mode.
Qed.

Lemma find_min_range_exhausted_mode h fuel fk f delta s s' :
  mode_preserving f ->
  find_min_range h fuel fk f delta s = (Returns None, s') ->
  rotation_mode s' = AXIS_ANGLE.
Proof.
  intros Hf. rewrite find_min_range_unfold. cbv zeta. intros H.
  apply (scan_None_keeps_mode _ _ _ _ _ _ Hf) in H.
  now rewrite H, find_min_range_entry_mode.
Qed.

(** *** The angle an exhausted scan leaves behind *)

Lemma scan_None_angle h delta fk rot start :
  same_mode_keeps_angle h ->
  forall fuel a s s',
    rotation_mode s = AXIS_ANGLE ->
    aa_angle (rotation_axis_angle s) = a ->
    find_min_range_loop h fuel (tail_distance h) delta fk rot start a s
    = (Returns None, s') ->
    exists n,
      (forall j, (j < n)%nat -> in_window start (scan_angle a delta j))
      /\ ~ in_window start (scan_angle a delta n)
      /\ aa_angle (rotation_axis_angle s') = scan_angle a delta n.
Proof.
  intros Hkeep. induction fuel as [|fuel IH]; intros a s s' Hmode Hang;
    [discriminate|].
  simpl. destruct (_ && _) eqn:Hw.
  - apply window_test in Hw. intros H.
    destruct (tail_distance_angle h (a - delta) fk s Hkeep Hmode)
      as (l & s1 & E1 & M1 & _).
    destruct (tail_distance_angle h a fk s1 Hkeep M1) as (c & s2 & E2 & M2 & _).
    destruct (tail_distance_angle h (a + delta) fk s2 Hkeep M2)
      as (r & s3 & E3 & M3 & A3).
    rewrite (bind_Returns _ _ _ _ _ E1), (bind_Returns _ _ _ _ _ E2),
      (bind_Returns _ _ _ _ _ E3) in H.
    destruct (Req_dec_T _ _) as [_|_].
    + rewrite assign_then_ret in H. discriminate.
    + apply (IH _ _ _ M3 A3) in H as (n & Hin & Hout & Hfin).
      exists (S n). split; [|split]; [| exact Hout | exact Hfin].
      intros [|j] Hj; [exact Hw | apply Hin; lia].
  - intros [= <-]. exists 0%nat. split; [intros j Hj; lia|]. split; [|exact Hang].
    simpl. rewrite <- window_test, Hw. discriminate.
Qed.

Lemma exhausted_count start n :
  (forall j, (j < n)%nat -> in_window start (scan_angle start (PI / 8) j)) ->
  ~ in_window start (scan_angle start (PI / 8) n) ->
  n = 16%nat.
Proof.
  intros Hin Hout. rewrite in_window_eighth in Hout.
  destruct (Nat.lt_ge_cases 16 n) as [Hgt|Hle]; [|lia].
  specialize (Hin 16%nat Hgt). apply in_window_eighth in Hin. lia.
Qed.

Lemma find_min_range_exhausted_angle h fuel fk s s' :
  same_mode_keeps_angle h ->
  find_min_range h fuel fk (tail_distance h) (PI / 8) s = (Returns None, s') ->
  aa_angle (rotation_axis_angle s')
  = aa_angle (rotation_axis_angle (snd (find_min_range_entry h s))) + 2 * PI.
Proof.
  intros Hkeep. rewrite find_min_range_unfold. cbv zeta. intros H.
  apply (scan_None_angle h _ _ _ _ Hkeep) in H as (n & Hin & Hout & ->);
    [| apply find_min_range_entry_mode | reflexivity].
  rewrite (exhausted_count _ _ Hin Hout), scan_angle_INR.
  replace (INR 16) with 16 by (simpl; lra). field.
Qed.

(** Claim C2, as amended.  When the bracket search exhausts its window,
    [correct_rotation] fails with the [TypeError] of subscripting the
    missing bracket, a failure distinct from a normal return; neither the
    ternary search nor the final write-back runs, and the bone stays as the
    failed scan left it; on a host that keeps the angle when a bone is
    re-assigned the mode it already has, its angle value is then the last
    angle sampled, [start_angle + 2 pi], not the value before the
    search. *)
Theorem correct_rotation_exhausted h fuel fk s s' :
  same_mode_keeps_angle h ->
  find_min_range h fuel fk (tail_distance h) (PI / 8) s = (Returns None, s') ->
  correct_rotation h fuel fk s = (Raises TypeError, s')
  /\ aa_angle (rotation_axis_angle s')
     = aa_angle (rotation_axis_angle (snd (find_min_range_entry h s))) + 2 * PI.
Proof.
  intros Hkeep H. split.
  - unfold correct_rotation. now rewrite (bind_Returns _ _ _ _ _ H).
  - now apply find_min_range_exhausted_angle with (fuel := fuel) (fk := fk).
Qed.

(** Helper forms of the two exits for a step of pi/8. *)
Lemma find_min_range_found_eighth h fk f g s extra k :
  let start := aa_angle (rotation_axis_angle (snd (find_min_range_entry h s))) in
  valued f fk g ->
  (k < 16)%nat ->
  center_is_min g (PI / 8) (scan_angle start (PI / 8) k) ->
  (forall j, (j < k)%nat -> ~ center_is_min g (PI / 8) (scan_angle start (PI / 8) j)) ->
  fst (find_min_range h (17 + extra) fk f (PI / 8) s)
  = Returns (Some (scan_angle start (PI / 8) k - PI / 8,
                   scan_angle start (PI / 8) k + PI / 8)).
Proof.
  intros start Hval Hk Hmin Hfirst.
  rewrite find_min_range_unfold. cbv zeta. fold start.
  apply (scan_found h f g (PI / 8) fk _ start Hval k); auto; [lia|].
  intros j Hj. apply in_window_eighth. lia.
Qed.

Lemma find_min_range_exhausted_eighth h fk f g s extra :
  let start := aa_angle (rotation_axis_angle (snd (find_min_range_entry h s))) in
  valued f fk g ->
  (forall k, (k < 16)%nat -> ~ center_is_min g (PI / 8) (scan_angle start (PI / 8) k)) ->
  fst (find_min_range h (17 + extra) fk f (PI / 8) s) = Returns None.
Proof.
  intros start Hval Hnone.
  rewrite find_min_range_unfold. cbv zeta. fold start.
  apply (scan_exhausted h f g (PI / 8) fk _ start Hval 16); auto; [lia| |].
  - intros j Hj. now apply in_window_eighth.
  - intros Hw. apply (in_window_eighth start 16) in Hw. lia.
Qed.

(** *** The reference host *)

Lemma reference_keeps_angle : same_mode_keeps_angle reference_host.
Proof. intros b. reflexivity. Qed.

Lemma reference_entry_angle mode a :
  aa_angle (rotation_axis_angle
              (snd (find_min_range_entry reference_host
                      (sample_bone Matrix_identity mode a)))) = a.
Proof.
  unfold find_min_range_entry, bind, get, assign_rotation_mode, modify, ret.
  simpl. destruct (decide _); reflexivity.
Qed.

Lemma reference_tail_distance_valued :
  valued (tail_distance reference_host) far_bone far_distance.
Proof.
  intros a s. rewrite tail_distance_run. eexists. reflexivity.
Qed.

Lemma far_distance_linear a : -10 <= a -> far_distance a = 10 + a.
Proof.
  intros Ha. unfold far_distance, vlength, vdot, vsub; simpl.
  replace (_ + _ + _) with ((10 + a) * (10 + a)) by ring.
  apply sqrt_square. lra.
Qed.

Lemma scan_angle_nonneg k : 0 <= scan_angle 0 (PI / 8) k.
Proof.
  rewrite scan_angle_INR. pose proof PI_RGT_0. pose proof (pos_INR k). nra.
Qed.

Lemma far_distance_no_minimum k :
  ~ center_is_min far_distance (PI / 8) (scan_angle 0 (PI / 8) k).
Proof.
  pose proof (scan_angle_nonneg k) as Hk. pose proof PI_RGT_0. pose proof PI_4.
  intros [Hl _]. rewrite !far_distance_linear in Hl by lra. lra.
Qed.

Lemma reference_scan_exhausted mode extra :
  exists s',
    find_min_range reference_host (17 + extra) far_bone
      (tail_distance reference_host) (PI / 8)
      (sample_bone Matrix_identity mode 0) = (Returns None, s').
Proof.
  pose proof (find_min_range_exhausted_eighth reference_host far_bone
                (tail_distance reference_host) far_distance
                (sample_bone Matrix_identity mode 0) extra
                reference_tail_distance_valued) as H.
  rewrite reference_entry_angle in H.
  specialize (H (fun k _ => far_distance_no_minimum k)).
  destruct (find_min_range _ _ _ _ _ _) as [o s']. simpl in H. subst o.
  now exists s'.
Qed.

(** *** Concrete scans *)


Lemma shifted_abs_no_minimum k :
  ~ center_is_min shifted_abs (PI / 8) (scan_angle 0 (PI / 8) k).
Proof.
  pose proof (scan_angle_nonneg k) as Hk. pose proof PI_RGT_0.
  intros [Hl _]. unfold shifted_abs in Hl.
  rewrite !Rabs_pos_eq in Hl by lra. lra.
Qed.

(** Claim C1 as stated fails twice from a bone at angle 0.  On a constant
    objective the search returns the bracket around its first angle
    although no center sample is a strict minimum; and on an objective
    whose only minimum is at -pi/2, inside the window of 2 pi below the
    start, it returns no bracket, since it never scans downward. *)
Lemma find_min_range_counterexample :
  let b0 := sample_bone Matrix_identity AXIS_ANGLE 0 in
  (fst (find_min_range reference_host 17 far_bone
          (pure_objective (fun _ => 0)) (PI / 8) b0)
   = Returns (Some (0 - PI / 8, 0 + PI / 8))
   /\ ~ center_is_strict_min (fun _ => 0) (PI / 8) 0)
  /\ (fst (find_min_range reference_host 17 far_bone
             (pure_objective shifted_abs) (PI / 8) b0)
      = Returns None
      /\ center_is_strict_min shifted_abs (PI / 8) (0 - 4 * (PI / 8))
      /\ in_window 0 (0 - 4 * (PI / 8))).
Proof.
  intros b0. pose proof PI_RGT_0 as Hpi. split; [split|split; [|split]].
  - pose proof (find_min_range_found_eighth reference_host far_bone
                  (pure_objective (fun _ => 0)) (fun _ => 0) b0 0 0
                  (valued_pure_objective _ _)) as H.
    cbv zeta in H. unfold b0 in H. rewrite reference_entry_angle in H.
    apply H; [lia | split; lra | intros j Hj; lia].
  - intros [Hl _]. lra.
  - pose proof (find_min_range_exhausted_eighth reference_host far_bone
                  (pure_objective shifted_abs) shifted_abs b0 0
                  (valued_pure_objective _ _)) as H.
    cbv zeta in H. unfold b0 in H. rewrite reference_entry_angle in H.
    apply H. intros k _. apply shifted_abs_no_minimum.
  - unfold center_is_strict_min, shifted_abs.
    replace (0 - 4 * (PI / 8) + PI / 2) with 0 by field.
    replace (0 - 4 * (PI / 8) - PI / 8 + PI / 2) with (- (PI / 8)) by field.
    replace (0 - 4 * (PI / 8) + PI / 8 + PI / 2) with (PI / 8) by field.
    rewrite Rabs_R0, Rabs_Ropp, Rabs_pos_eq by lra. lra.
  - unfold in_window. lra.
Qed.

(** Claim C3, evaluated where the code departs from it.  On a bone in
    quaternion mode and a strictly increasing objective, the bracket search
    finds no bracket and returns with the bone left in axis-angle mode: the
    exit through the end of the loop does not restore the rotation mode,
    unlike the exit with a bracket ([find_min_range_found_restores_mode])
    and unlike every evaluation of [tail_distance]
    ([tail_distance_restores_mode]). *)
Theorem find_min_range_exhausted_leaves_axis_angle :
  let bone_ik := sample_bone Matrix_identity QUATERNION 0 in
  exists s',
    find_min_range reference_host 17 far_bone (pure_objective (fun x => x))
                   (PI / 8) bone_ik = (Returns None, s')
    /\ rotation_mode bone_ik = QUATERNION
    /\ rotation_mode s' = AXIS_ANGLE.
Proof.
  intros bone_ik.
  pose proof (find_min_range_exhausted_eighth reference_host far_bone
                (pure_objective (fun x => x)) (fun x => x) bone_ik 0
                (valued_pure_objective _ _)) as H.
  cbv zeta in H.
  assert (Hnone : fst (find_min_range reference_host 17 far_bone
                         (pure_objective (fun x => x)) (PI / 8) bone_ik)
                  = Returns None).
  { apply H. intros k _ [Hl _]. pose proof PI_RGT_0. lra. }
  destruct (find_min_range _ _ _ _ _ _) as [o s'] eqn:E. simpl in Hnone. subst o.
  exists s'. split; [reflexivity|]. split; [reflexivity|].
  apply (find_min_range_exhausted_mode _ _ _ _ _ _ _ (mode_preserving_pure _) E).
Qed.

Lemma find_min_range_tail_distance_exhausted_mode :
  exists s',
    find_min_range reference_host 17 far_bone (tail_distance reference_host)
                   (PI / 8) (sample_bone Matrix_identity QUATERNION 0)
    = (Returns None, s')
    /\ rotation_mode s' = AXIS_ANGLE.
Proof.
  destruct (reference_scan_exhausted QUATERNION 0) as [s' E].
  exists s'. split; [exact E|].
  apply (find_min_range_exhausted_mode _ _ _ _ _ _ _
           (mode_preserving_tail_distance _) E).
Qed.

Lemma correct_rotation_after_exhausted h fuel fk s s' :
  find_min_range h fuel fk (tail_distance h) (PI / 8) s = (Returns None, s') ->
  correct_rotation h fuel fk s = (Raises TypeError, s').
Proof. intros H. unfold correct_rotation. now rewrite (bind_Returns _ _ _ _ _ H). Qed.

(** Claim C2 as stated fails: after an exhausted search on a bone already
    in axis-angle mode, the bone's angle is no longer the one it had. *)
Lemma correct_rotation_counterexample :
  let b0 := sample_bone Matrix_identity AXIS_ANGLE 0 in
  exists s',
    find_min_range reference_host 17 far_bone (tail_distance reference_host)
                   (PI / 8) b0 = (Returns None, s')
    /\ correct_rotation reference_host 17 far_bone b0 = (Raises TypeError, s')
    /\ aa_angle (rotation_axis_angle s') <> aa_angle (rotation_axis_angle b0)
    /\ s' <> b0.
Proof.
  intros b0. destruct (reference_scan_exhausted AXIS_ANGLE 0) as [s' E].
  exists s'. split; [exact E|]. split; [now apply correct_rotation_after_exhausted|].
  pose proof (find_min_range_exhausted_angle _ _ _ _ _ reference_keeps_angle E) as Ha.
  rewrite reference_entry_angle in Ha.
  assert (Hne : aa_angle (rotation_axis_angle s') <> aa_angle (rotation_axis_angle b0)).
  { rewrite Ha. simpl. pose proof PI_RGT_0. lra. }
  split; [exact Hne|]. intros ->. now apply Hne.
Qed.

(** ** Ternary search *)

Lemma ternarySearch_stop f left right fk prec fuel s :
  Rabs (right - left) < prec ->
  ternarySearch (S fuel) f left right fk prec s
  = (Returns ((left + right) / 2), s).
Proof. intros H. simpl. destruct (Rlt_dec _ _); [reflexivity | contradiction]. Qed.

Lemma ternarySearch_step g left right fk prec fuel s :
  ~ Rabs (right - left) < prec ->
  let leftThird := left + (right - left) / 3 in
  let rightThird := right - (right - left) / 3 in
  ternarySearch (S fuel) (pure_objective g) left right fk prec s
  = if Rgt_dec (g leftThird) (g rightThird)
    then ternarySearch fuel (pure_objective g) leftThird right fk prec s
    else ternarySearch fuel (pure_objective g) left rightThird fk prec s.
Proof.
  intros H. simpl. destruct (Rlt_dec _ _); [contradiction|].
  unfold pure_objective at 1 2, bind, ret. destruct (Rgt_dec _ _); reflexivity.
Qed.

Lemma ternarySearch_unimodal g x0 lo hi fk prec s :
  unimodal g x0 lo hi ->
  0 < prec ->
  forall n left right extra,
    lo <= left -> right <= hi ->
    left <= x0 <= right ->
    (right - left) * (2 / 3) ^ n < prec ->
    exists m,
      ternarySearch (S n + extra) (pure_objective g) left right fk prec s
      = (Returns m, s)
      /\ Rabs (m - x0) < prec.
Proof.
  intros [Hdec Hinc] Hprec.
  induction n as [|n IH]; intros left right extra Hlo Hhi Hx Hw.
  - simpl in Hw. rewrite ternarySearch_stop by (rewrite Rabs_pos_eq; lra).
    eexists. split; [reflexivity|].
    apply Rabs_def1; lra.
  - change (S (S n) + extra)%nat with (S (S n + extra)).
    destruct (Rlt_dec (Rabs (right - left)) prec) as [Hs|Hs].
    + rewrite ternarySearch_stop by exact Hs.
      eexists. split; [reflexivity|].
      rewrite Rabs_pos_eq in Hs by lra. apply Rabs_def1; lra.
    + rewrite ternarySearch_step by exact Hs. cbv zeta.
      assert (Hlr : left < right).
      { destruct (Rle_lt_dec right left) as [Hle|]; [|assumption].
        exfalso. apply Hs. replace right with left by lra.
        rewrite Rminus_diag, Rabs_R0. exact Hprec. }
      simpl in Hw.
      destruct (Rgt_dec _ _) as [Hgt|Hngt].
      * apply IH; try lra.
        destruct (Rle_lt_dec (left + (right - left) / 3) x0) as [|Hc]; [lra|].
        exfalso.
        pose proof (Hinc (left + (right - left) / 3)
                         (right - (right - left) / 3)). lra.
      * apply IH; try lra.
        destruct (Rle_lt_dec x0 (right - (right - left) / 3)) as [|Hc]; [lra|].
        exfalso.
        pose proof (Hdec (left + (right - left) / 3)
                         (right - (right - left) / 3)). lra.
Qed.

Lemma quadratic_unimodal x0 lo hi :
  unimodal (fun x => (x - x0) * (x - x0)) x0 lo hi.
Proof. split; intros x y H1 H2 H3; nra. Qed.

(** Claim C6.  The ternary search returns the bracket midpoint as soon as
    the bracket width is below the precision; otherwise it drops the third
    on the side of the larger of the two interior third-point samples and
    goes on.  For the quadratic [(x - x0)^2] on the bracket
    [x0 - 1, x0 + 1] with precision 0.01 it returns within fifteen tests of
    its loop condition, the bone untouched, and the value returned is
    within 0.01 of [x0]. *)
Theorem ternarySearch_quadratic x0 fk s extra :
  (forall f left right prec fuel,
     Rabs (right - left) < prec ->
     ternarySearch (S fuel) f left right fk prec s
     = (Returns ((left + right) / 2), s))
  /\ (forall g left right prec fuel,
        ~ Rabs (right - left) < prec ->
        ternarySearch (S fuel) (pure_objective g) left right fk prec s
        = if Rgt_dec (g (left + (right - left) / 3))
                     (g (right - (right - left) / 3))
          then ternarySearch fuel (pure_objective g)
                 (left + (right - left) / 3) right fk prec s
          else ternarySearch fuel (pure_objective g)
                 left (right - (right - left) / 3) fk prec s)
  /\ exists m,
       ternarySearch (15 + extra) (quadratic x0) (x0 - 1) (x0 + 1) fk (1 / 100) s
       = (Returns m, s)
       /\ Rabs (m - x0) < 1 / 100.
Proof.
  split; [|split].
  - intros. now apply ternarySearch_stop.
  - intros. now apply ternarySearch_step.
  - apply (ternarySearch_unimodal _ x0 (x0 - 1) (x0 + 1) fk (1 / 100) s
             (quadratic_unimodal _ _ _) ltac:(lra) 14); lra.
Qed.

(** ** Pole target *)

Lemma set_pole_run h a ikv pvi s :
  set_pole h a ikv pvi s
  = match placed_location h a ikv pvi s with
    | Returns l => (Returns tt, with_location l s)
    | Raises e => (Raises e, s)
    | OutOfFuel => (OutOfFuel, s)
    end.
Proof.
  unfold set_pole, placed_location, set_pose_translation, bind, get, lift,
    modify.
  destruct (get_pose_matrix_in_other_space _ _); try reflexivity.
  destruct (use_local_location _); [reflexivity|].
  destruct (inverted_or_raise _); reflexivity.
Qed.

Lemma placed_location_with_location h a ikv pvi l s :
  placed_location h a ikv pvi (with_location l s) = placed_location h a ikv pvi s.
Proof. reflexivity. Qed.

Lemma with_location_twice l l' s :
  with_location l (with_location l' s) = with_location l s.
Proof. reflexivity. Qed.

Lemma set_pole_Returns h a ikv pvi s s' :
  set_pole h a ikv pvi s = (Returns tt, s') ->
  exists l, placed_location h a ikv pvi s = Returns l /\ s' = with_location l s.
Proof.
  rewrite set_pole_run. destruct (placed_location _ _ _ _ _); try discriminate.
  intros [= <-]. eauto.
Qed.

(** Claim C7.  Let [s1], [s2], [s3] be the pole bone after the first
    placement, after the [+angle] candidate and after the [-angle]
    candidate, and [ang1], [ang2] the residual errors measured after the
    last two.  If [ang1 < ang2] the [+angle] candidate is applied again and
    the pole ends exactly as that candidate left it ([s2]); otherwise, and
    in particular when [ang1 = ang2], nothing more is applied and the pole
    stays at the [-angle] candidate ([s3]). *)
Theorem match_pole_target_keeps_smaller h ik_first ik_last match_bone length
    s0 s1 s2 s3 :
  let a := to_translation (matrix ik_first) in
  let ikv := chain_vector ik_first ik_last in
  let pv := pole_offset ikv length in
  let angle := rotation_difference h (ik_solve h s1 ik_first) (matrix match_bone) in
  let pv1 := rotated h angle ikv pv in
  let pv2 := rotated h (- angle) ikv pv in
  let ang1 := rotation_difference h (ik_solve h s2 ik_first) (matrix match_bone) in
  let ang2 := rotation_difference h (ik_solve h s3 ik_first) (matrix match_bone) in
  set_pole h a ikv pv s0 = (Returns tt, s1) ->
  set_pole h a ikv pv1 s1 = (Returns tt, s2) ->
  set_pole h a ikv pv2 s2 = (Returns tt, s3) ->
  (ang1 < ang2 ->
   match_pole_target h ik_first ik_last match_bone length s0 = (Returns tt, s2))
  /\ (~ ang1 < ang2 ->
      match_pole_target h ik_first ik_last match_bone length s0 = (Returns tt, s3))
  /\ (ang1 = ang2 ->
      match_pole_target h ik_first ik_last match_bone length s0 = (Returns tt, s3)).
Proof.
  intros a ikv pv angle pv1 pv2 ang1 ang2 E1 E2 E3.
  assert (Hrun : match_pole_target h ik_first ik_last match_bone length s0
                 = if Rlt_dec ang1 ang2 then set_pole h a ikv pv1 s3
                   else (Returns tt, s3)).
  { unfold match_pole_target. cbv zeta. fold a ikv pv.
    rewrite (bind_Returns _ _ _ _ _ E1).
    unfold ik_first_matrix at 1. unfold bind at 1, get at 1, bind at 1, ret at 1.
    fold angle. fold pv1.
    rewrite (bind_Returns _ _ _ _ _ E2).
    unfold ik_first_matrix at 1. unfold bind at 1, get at 1, bind at 1, ret at 1.
    fold ang1. fold pv2.
    rewrite (bind_Returns _ _ _ _ _ E3).
    unfold ik_first_matrix at 1. unfold bind at 1, get at 1, bind at 1, ret at 1.
    fold ang2. destruct (Rlt_dec _ _); reflexivity. }
  rewrite Hrun. split; [|split].
  - intros Hlt. destruct (Rlt_dec _ _); [|contradiction].
    apply set_pole_Returns in E1 as (l0 & _ & ->).
    apply set_pole_Returns in E2 as (l1 & P1 & ->).
    apply set_pole_Returns in E3 as (l2 & _ & ->).
    rewrite set_pole_run. rewrite !placed_location_with_location in *.
    now rewrite P1.
  - intros Hge. destruct (Rlt_dec _ _); [contradiction|reflexivity].
  - intros Heq. destruct (Rlt_dec _ _); [lra|reflexivity].
Qed.

Lemma to_translation_Translation v : to_translation (Translation v) = v.
Proof. now destruct v. Qed.

Lemma set_pole_rest_bone h a ikv pvi s :
  bone s = rest_bone -> parent s = None ->
  set_pole h a ikv pvi s = (Returns tt, with_location (pole_location a ikv pvi) s).
Proof.
  intros Hb Hp. rewrite set_pole_run.
  unfold placed_location, get_pose_matrix_in_other_space, inverted_or_raise.
  rewrite Hb, Hp. simpl. rewrite inverted_identity, !mmul_1_l.
  now rewrite to_translation_Translation.
Qed.

(** ** Legacy stretch copy *)

Lemma has_key_true key b : has_key key b = true <-> is_Some (props b !! key).
Proof. unfold has_key. apply bool_decide_eq_true. Qed.

Lemma has_key_false key b : has_key key b = false <-> props b !! key = None.
Proof.
  unfold has_key. rewrite bool_decide_eq_false, <- eq_None_not_Some. tauto.
Qed.

(** Claim C10.  The stretch step of the pole branch of [ik2fk_leg] copies
    [thigh['stretch_length']] into [footi['stretch_length']] exactly when
    both bones carry the key spelled [stretch_lenght]; otherwise [footi] is
    unchanged, in particular on a rig whose foot or thigh carries only the
    key spelled [stretch_length]. *)
Theorem ik2fk_leg_stretch_needs_misspelled_key thigh footi :
  (has_key "stretch_lenght" footi = true /\ has_key "stretch_lenght" thigh = true ->
   ik2fk_leg_stretch thigh footi
   = match props thigh !! "stretch_length" with
     | Some v =>
       (Returns tt, with_props (<["stretch_length" := v]> (props footi)) footi)
     | None => (Raises KeyError, footi)
     end)
  /\ (~ (has_key "stretch_lenght" footi = true
         /\ has_key "stretch_lenght" thigh = true) ->
      ik2fk_leg_stretch thigh footi = (Returns tt, footi))
  /\ ((forall key, is_Some (props footi !! key) -> key = "stretch_length") ->
      ik2fk_leg_stretch thigh footi = (Returns tt, footi))
  /\ ((forall key, is_Some (props thigh !! key) -> key = "stretch_length") ->
      ik2fk_leg_stretch thigh footi = (Returns tt, footi)).
Proof.
  assert (Hoff : has_key "stretch_lenght" footi && has_key "stretch_lenght" thigh
                 = false ->
                 ik2fk_leg_stretch thigh footi = (Returns tt, footi)).
  { intros H. unfold ik2fk_leg_stretch, bind, get. now rewrite H. }
  split; [|split; [|split]].
  - intros [Hf Ht]. unfold ik2fk_leg_stretch, bind, get. rewrite Hf, Ht. simpl.
    destruct (props thigh !! "stretch_length"); reflexivity.
  - intros Hn. apply Hoff. apply andb_false_iff.
    destruct (has_key _ footi), (has_key _ thigh); auto.
    exfalso. apply Hn. auto.
  - intros Honly. apply Hoff. apply andb_false_iff. left.
    apply has_key_false. apply eq_None_not_Some. intros Hs.
    apply Honly in Hs. discriminate.
  - intros Honly. apply Hoff. apply andb_false_iff. right.
    apply has_key_false. apply eq_None_not_Some. intros Hs.
    apply Honly in Hs. discriminate.
Qed.

(** ** Instances on the reference host *)

Lemma child_sample_well_formed :
  invertible (matrix_local (bone child_sample))
  /\ parent_pose_invertible child_sample.
Proof.
  split.
  - change (determinant (Translation (vec3 0 1 0)) <> 0).
    rewrite det_Translation. lra.
  - change (determinant (Translation (vec3 1 0 0)) <> 0).
    rewrite det_Translation. lra.
Qed.

Lemma get_pose_matrix_in_other_space_formula_witness :
  exists rest_inv par_inv,
    is_inverse rest_inv (matrix_local (bone child_sample))
    /\ is_inverse par_inv (parent_pose child_sample)
    /\ get_pose_matrix_in_other_space (Translation (vec3 1 2 3)) child_sample
       = Returns (mmul rest_inv (mmul (parent_rest child_sample)
                                      (mmul par_inv (Translation (vec3 1 2 3))))).
Proof.
  apply (get_pose_matrix_in_other_space_formula (Translation (vec3 1 2 3))
           child_sample);
    apply child_sample_well_formed.
Defined.

Lemma space_conversion_round_trip_witness :
  (forall M W, convert_to_world_spec M child_sample = Returns W ->
               get_pose_matrix_in_other_space W child_sample = Returns M)
  /\ (forall W L W', get_pose_matrix_in_other_space W child_sample = Returns L ->
                  convert_to_world_spec L child_sample = Returns W' -> W' = W).
Proof.
  apply (space_conversion_round_trip child_sample);
    apply child_sample_well_formed.
Defined.

Lemma quaternion_of_matrix_unit m :
  qdot (quaternion_of_matrix m) (quaternion_of_matrix m) = 1.
Proof. unfold quaternion_of_matrix. apply qnormalized_unit. Qed.

Lemma rotation_difference_symmetric_bounded_witness :
  let m1 := Translation (vec3 1 0 0) in
  let m2 := Matrix_identity in
  rotation_difference reference_host m1 m2 = rotation_difference reference_host m2 m1
  /\ 0 <= rotation_difference reference_host m1 m2 <= PI
  /\ rotation_difference reference_host m2 m2 = 0.
Proof.
  apply (rotation_difference_symmetric_bounded reference_host
           (Translation (vec3 1 0 0)) Matrix_identity Matrix_identity).
  apply quaternion_of_matrix_unit.
Defined.

Lemma sample_chain_vector : chain_vector chain_start chain_end = vec3 2 0 0.
Proof. unfold chain_vector, vsub, vadd; simpl. f_equal; ring. Qed.

Lemma sample_chain_midpoint :
  vadd (vec3 0 0 0) (vdiv (vec3 2 0 0) 2) = vec3 1 0 0.
Proof. unfold vadd, vdiv; simpl. f_equal; field. Qed.

Lemma pole_offset_perpendicular_at_length_witness :
  let ploc := pole_location (vec3 0 0 0) (vec3 2 0 0) (pole_offset (vec3 2 0 0) 1) in
  vlength (vsub ploc (vec3 1 0 0)) = 1
  /\ vdot (vsub ploc (vec3 1 0 0)) (vec3 2 0 0) = 0.
Proof.
  intros ploc.
  pose proof (pole_offset_perpendicular_at_length chain_start chain_end 1) as H.
  cbv zeta in H. rewrite sample_chain_vector in H.
  change (to_translation (matrix chain_start)) with (vec3 0 0 0) in H.
  rewrite sample_chain_midpoint in H.
  assert (Hne : vec3 2 0 0 <> vzero) by (intros [=]; lra).
  destruct (H Hne) as (_ & _ & _ & _ & Hdot & Hlen).
  split; [apply Hlen; lra | exact Hdot].
Defined.

Lemma find_min_range_scans_upward_witness :
  let b0 := sample_bone Matrix_identity QUATERNION 0 in
  let g := fun x : R => x * x in
  let start := aa_angle (rotation_axis_angle (snd (find_min_range_entry reference_host b0))) in
  let delta := PI / 8 in
  let result := fst (find_min_range reference_host 17 far_bone (pure_objective g) delta b0) in
  (forall k, (k < 16)%nat ->
     center_is_min g delta (scan_angle start delta k) ->
     (forall j, (j < k)%nat -> ~ center_is_min g delta (scan_angle start delta j)) ->
     result = Returns (Some (scan_angle start delta k - delta,
                             scan_angle start delta k + delta)))
  /\ ((forall k, (k < 16)%nat -> ~ center_is_min g delta (scan_angle start delta k)) ->
      result = Returns None)
  /\ (forall k, scan_angle start delta k = start + INR k * delta
                /\ ((k < 16)%nat -> start <= scan_angle start delta k < start + 2 * PI)).
Proof.
  apply (find_min_range_scans_upward reference_host far_bone
           (pure_objective (fun x => x * x)) (fun x => x * x)
           (sample_bone Matrix_identity QUATERNION 0) 0).
  apply valued_pure_objective.
Defined.

Example find_min_range_at_start :
  fst (find_min_range reference_host 17 far_bone (pure_objective (fun x => x * x))
         (PI / 8) (sample_bone Matrix_identity QUATERNION 0))
  = Returns (Some (0 - PI / 8, 0 + PI / 8)).
Proof.
  pose proof (find_min_range_found_eighth reference_host far_bone
                (pure_objective (fun x => x * x)) (fun x => x * x)
                (sample_bone Matrix_identity QUATERNION 0) 0 0
                (valued_pure_objective _ _)) as H.
  cbv zeta in H. rewrite reference_entry_angle in H.
  apply H; [lia | | intros j Hj; lia].
  split; simpl; nra.
Qed.

Lemma correct_rotation_exhausted_witness :
  let b0 := sample_bone Matrix_identity AXIS_ANGLE 0 in
  exists s',
    correct_rotation reference_host 17 far_bone b0 = (Raises TypeError, s')
    /\ aa_angle (rotation_axis_angle s')
       = aa_angle (rotation_axis_angle (snd (find_min_range_entry reference_host b0)))
         + 2 * PI.
Proof.
  intros b0. destruct (reference_scan_exhausted AXIS_ANGLE 0) as [s' E].
  exists s'.
  exact (correct_rotation_exhausted reference_host 17 far_bone b0 s'
           reference_keeps_angle E).
Defined.

Lemma match_pole_target_keeps_smaller_witness :
  let h := reference_host in
  let s0 := sample_bone Matrix_identity QUATERNION 0 in
  let a := to_translation (matrix chain_start) in
  let ikv := chain_vector chain_start chain_end in
  let pv := pole_offset ikv 1 in
  let s1 := with_location (pole_location a ikv pv) s0 in
  let angle := rotation_difference h (ik_solve h s1 chain_start) (matrix chain_start) in
  let pv1 := rotated h angle ikv pv in
  let pv2 := rotated h (- angle) ikv pv in
  let s2 := with_location (pole_location a ikv pv1) s1 in
  let s3 := with_location (pole_location a ikv pv2) s2 in
  let ang1 := rotation_difference h (ik_solve h s2 chain_start) (matrix chain_start) in
  let ang2 := rotation_difference h (ik_solve h s3 chain_start) (matrix chain_start) in
  (ang1 < ang2 ->
   match_pole_target h chain_start chain_end chain_start 1 s0 = (Returns tt, s2))
  /\ (~ ang1 < ang2 ->
      match_pole_target h chain_start chain_end chain_start 1 s0 = (Returns tt, s3))
  /\ (ang1 = ang2 ->
      match_pole_target h chain_start chain_end chain_start 1 s0 = (Returns tt, s3)).
Proof.
  intros h s0 a ikv pv s1 angle pv1 pv2 s2 s3 ang1 ang2.
  apply (match_pole_target_keeps_smaller h chain_start chain_end chain_start 1
           s0 s1 s2 s3);
    apply set_pole_rest_bone; reflexivity.
Defined.

Example current_rig_keeps_stretch :
  ik2fk_leg_stretch current_thigh current_foot = (Returns tt, current_foot).
Proof. reflexivity. Qed.

Example legacy_rig_copies_stretch :
  exists footi',
    ik2fk_leg_stretch legacy_thigh legacy_foot = (Returns tt, footi')
    /\ props footi' !! "stretch_length" = Some 2.
Proof.
  eexists. split; [reflexivity|]. simpl. apply lookup_insert_eq.
Qed.

(** * Further properties of the code *)

(** ** More on the space converter *)

Lemma inverted_or_raise_cases m :
  (determinant m = 0 /\ inverted_or_raise m = Raises ValueError)
  \/ (determinant m <> 0 /\ exists mi, inverted m = Some mi
                                      /\ inverted_or_raise m = Returns mi).
Proof.
  unfold inverted_or_raise, inverted.
  destruct (Req_dec_T _ _) as [E|N]; [left; auto | right].
  split; [exact N|]. eexists. split; reflexivity.
Qed.

(** X1.  The space converter raises [ValueError] when the rest matrix of the
    bone, or the pose matrix of its parent, has determinant 0, and returns
    a matrix in every other case; the parent's rest matrix is never
    inverted, so it cannot make the conversion fail. *)
Theorem get_pose_matrix_in_other_space_errors mat pose_bone :
  let singular :=
    determinant (matrix_local (bone pose_bone)) = 0
    \/ (exists p, parent pose_bone = Some p /\ determinant (matrix p) = 0) in
  (singular -> get_pose_matrix_in_other_space mat pose_bone = Raises ValueError)
  /\ (~ singular ->
      exists local, get_pose_matrix_in_other_space mat pose_bone = Returns local).
Proof.
  cbv zeta. unfold get_pose_matrix_in_other_space.
  destruct (inverted_or_raise_cases (matrix_local (bone pose_bone)))
    as [[Hz ->]|[Hnz (ri & _ & ->)]].
  - split; [reflexivity|]. intros Hn. exfalso. apply Hn. now left.
  - destruct (parent pose_bone) as [p|].
    + destruct (inverted_or_raise_cases (matrix p))
        as [[Hpz ->]|[Hpnz (pi & _ & ->)]].
      * split; [reflexivity|]. intros Hn. exfalso. apply Hn. right. eauto.
      * split; [|eauto]. intros [Hs|(p' & [= <-] & Hs)]; contradiction.
    + split; [|eauto]. intros [Hs|(p' & [=] & _)]. contradiction.
Qed.

(** X2.  Conversion commutes with multiplication on the right: when [mat]
    converts to [local], [mat * offset] converts to [local * offset] (the
    leg matchers multiply their foot offset onto the converted matrix). *)
Theorem get_pose_matrix_in_other_space_mmul mat offset pose_bone local :
  get_pose_matrix_in_other_space mat pose_bone = Returns local ->
  get_pose_matrix_in_other_space (mmul mat offset) pose_bone
  = Returns (mmul local offset).
Proof.
  unfold get_pose_matrix_in_other_space.
  destruct (inverted_or_raise _) as [ri| |]; try discriminate.
  destruct (parent pose_bone) as [p|].
  - destruct (inverted_or_raise _) as [pi| |]; try discriminate.
    intros [= <-]. now rewrite !mmul_assoc.
  - intros [= <-]. now rewrite !mmul_assoc.
Qed.

(** X3.  A bone that sits on its rest position under its parent, that is whose
    pose matrix is [parentPose * parentRest^-1 * rest], has the identity as
    its local pose matrix. *)
Theorem get_local_pose_matrix_at_rest pose_bone par_rest_inv :
  invertible (matrix_local (bone pose_bone)) ->
  parent_pose_invertible pose_bone ->
  inverted (parent_rest pose_bone) = Some par_rest_inv ->
  matrix pose_bone
  = mmul (parent_pose pose_bone)
         (mmul par_rest_inv (matrix_local (bone pose_bone))) ->
  get_local_pose_matrix pose_bone = Returns Matrix_identity.
Proof.
  intros Hrest Hpar Hpri Hm.
  destruct (invertible_inverted _ Hrest) as [ri Hri].
  unfold get_local_pose_matrix, get_pose_matrix_in_other_space,
    parent_pose_invertible, parent_pose, parent_rest, inverted_or_raise in *.
  rewrite Hri, Hm. destruct (parent pose_bone) as [p|].
  - destruct (invertible_inverted _ Hpar) as [pi Hpi]. rewrite Hpi. f_equal.
    rewrite (mmul_cancel_l _ _ _ Hpi), (mmul_cancel_r _ _ _ Hpri).
    apply (inverted_l _ _ Hri).
  - f_equal. rewrite inverted_identity in Hpri. injection Hpri as <-.
    rewrite !mmul_1_l. apply (inverted_l _ _ Hri).
Qed.

Lemma inverted_Translation v w :
  vadd v w = vzero -> inverted (Translation v) = Some (Translation w).
Proof.
  destruct v as [x y z], w as [x' y' z']. unfold vadd, vzero; simpl.
  intros [= Hx Hy Hz].
  rewrite inverted_Some by (unfold invertible; rewrite det_Translation; lra).
  f_equal. unfold Translation. matrix_crush.
  f_equal; f_equal; simpl; field_simplify_eq; lra.
Qed.

Lemma child_sample_converts mat :
  exists local, get_pose_matrix_in_other_space mat child_sample = Returns local.
Proof.
  unfold get_pose_matrix_in_other_space, inverted_or_raise.
  change (matrix_local (bone child_sample)) with (Translation (vec3 0 1 0)).
  rewrite (inverted_Translation _ (vec3 0 (-1) 0))
    by (unfold vadd, vzero; simpl; f_equal; lra).
  change (parent child_sample) with (Some parent_sample). cbv beta iota zeta.
  change (matrix parent_sample) with (Translation (vec3 1 0 0)).
  rewrite (inverted_Translation _ (vec3 (-1) 0 0))
    by (unfold vadd, vzero; simpl; f_equal; lra).
  eauto.
Qed.

Lemma get_pose_matrix_in_other_space_mmul_witness :
  exists local,
    get_pose_matrix_in_other_space
      (mmul (Translation (vec3 1 2 3)) (Translation (vec3 0 0 1))) child_sample
    = Returns (mmul local (Translation (vec3 0 0 1))).
Proof.
  destruct (child_sample_converts (Translation (vec3 1 2 3))) as [local E].
  exists local.
  exact (get_pose_matrix_in_other_space_mmul _ _ _ _ E).
Defined.

Lemma get_local_pose_matrix_at_rest_witness :
  get_local_pose_matrix resting_child = Returns Matrix_identity.
Proof.
  apply (get_local_pose_matrix_at_rest resting_child (Translation (vec3 0 0 (-1)))).
  - change (determinant (Translation (vec3 0 1 0)) <> 0).
    rewrite det_Translation. lra.
  - change (determinant (Translation (vec3 1 0 0)) <> 0).
    rewrite det_Translation. lra.
  - apply inverted_Translation. unfold vadd, vzero; simpl. f_equal; lra.
  - reflexivity.
Defined.

(** ** More on the pole target *)




Lemma match_pole_target_run h ik_first ik_last match_bone length s0 s1 s2 s3 :
  let a := to_translation (matrix ik_first) in
  let ikv := chain_vector ik_first ik_last in
  let pv := pole_offset ikv length in
  let angle := rotation_difference h (ik_solve h s1 ik_first) (matrix match_bone) in
  let pv1 := rotated h angle ikv pv in
  let pv2 := rotated h (- angle) ikv pv in
  let ang1 := rotation_difference h (ik_solve h s2 ik_first) (matrix match_bone) in
  let ang2 := rotation_difference h (ik_solve h s3 ik_first) (matrix match_bone) in
  set_pole h a ikv pv s0 = (Returns tt, s1) ->
  set_pole h a ikv pv1 s1 = (Returns tt, s2) ->
  set_pole h a ikv pv2 s2 = (Returns tt, s3) ->
  match_pole_target h ik_first ik_last match_bone length s0
  = if Rlt_dec ang1 ang2 then set_pole h a ikv pv1 s3 else (Returns tt, s3).
Proof.
  intros a ikv pv angle pv1 pv2 ang1 ang2 E1 E2 E3.
  unfold match_pole_target. cbv zeta. fold a ikv pv.
  rewrite (bind_Returns _ _ _ _ _ E1).
  unfold ik_first_matrix at 1. unfold bind at 1, get at 1, bind at 1, ret at 1.
  fold angle. fold pv1.
  rewrite (bind_Returns _ _ _ _ _ E2).
  unfold ik_first_matrix at 1. unfold bind at 1, get at 1, bind at 1, ret at 1.
  fold ang1. fold pv2.
  rewrite (bind_Returns _ _ _ _ _ E3).
  unfold ik_first_matrix at 1. unfold bind at 1, get at 1, bind at 1, ret at 1.
  fold ang2. destruct (Rlt_dec _ _); reflexivity.
Qed.



Lemma pole_offset_length ikv length :
  ikv <> vzero -> vlength (pole_offset ikv length) = Rabs length.
Proof.
  intros Hv. unfold pole_offset. rewrite vlength_vscale.
  rewrite vlength_normalized by now apply perpendicular_vector_nonzero. ring.
Qed.

Lemma pole_offset_orthogonal ikv length : vdot (pole_offset ikv length) ikv = 0.
Proof.
  unfold pole_offset. rewrite vdot_vscale.
  rewrite (vdot_normalized _ _ (perpendicular_vector_orthogonal ikv)). ring.
Qed.

Lemma set_pole_at_rest h a ikv pvi s :
  matrix_local (bone s) = Matrix_identity ->
  use_local_location (bone s) = true ->
  parent s = None ->
  set_pole h a ikv pvi s = (Returns tt, with_location (pole_location a ikv pvi) s).
Proof.
  intros Hm Hl Hp. rewrite set_pole_run.
  unfold placed_location, get_pose_matrix_in_other_space, inverted_or_raise.
  rewrite Hm, Hl, Hp, inverted_identity, !mmul_1_l.
  now rewrite to_translation_Translation.
Qed.

(** X5.  On a host whose [Matrix.Rotation] turns vectors about a proper axis,
    for a chain of nonzero extent and an unparented pole bone at rest with
    local location, [match_pole_target] returns and leaves the pole at
    distance [|length|] from the chain midpoint, in the plane through the
    midpoint perpendicular to the chain, whichever candidate it keeps. *)
Theorem match_pole_target_final_distance h ik_first ik_last match_bone length s0 :
  let a := to_translation (matrix ik_first) in
  let ikv := chain_vector ik_first ik_last in
  let mid := vadd a (vdiv ikv 2) in
  rotation_about_axis h ->
  ikv <> vzero ->
  matrix_local (bone s0) = Matrix_identity ->
  use_local_location (bone s0) = true ->
  parent s0 = None ->
  exists s',
    match_pole_target h ik_first ik_last match_bone length s0 = (Returns tt, s')
    /\ vlength (vsub (location s') mid) = Rabs length
    /\ vdot (vsub (location s') mid) ikv = 0.
Proof.
  intros a ikv mid Hrot Hv Hm Hl Hp.
  assert (Hset : forall pvi l,
             set_pole h a ikv pvi (with_location l s0)
             = (Returns tt, with_location (pole_location a ikv pvi) s0)).
  { intros pvi l. now rewrite set_pole_at_rest. }
  pose proof (match_pole_target_run h ik_first ik_last match_bone length s0
                _ _ _ (set_pole_at_rest h a ikv _ s0 Hm Hl Hp)
                (Hset _ _) (Hset _ _)) as Hrun.
  cbv zeta in Hrun. fold a ikv in Hrun. rewrite Hrun.
  assert (Hcand : forall angle,
             vlength (vsub (pole_location a ikv
                              (rotated h angle ikv (pole_offset ikv length))) mid)
             = Rabs length
             /\ vdot (vsub (pole_location a ikv
                              (rotated h angle ikv (pole_offset ikv length))) mid)
                     ikv = 0).
  { intros angle. unfold mid. rewrite vsub_pole_location.
    destruct (Hrot angle ikv (pole_offset ikv length) Hv) as [-> ->].
    split; [now apply pole_offset_length | apply pole_offset_orthogonal]. }
  destruct (Rlt_dec _ _).
  - rewrite Hset. eexists. split; [reflexivity|]. apply Hcand.
  - eexists. split; [reflexivity|]. apply Hcand.
Qed.

(** Rodrigues' formula on a unit axis keeps lengths and the component
    along the axis. *)
Lemma rodrigues_isometry c s kx ky kz x y z :
  c * c + s * s = 1 -> kx * kx + ky * ky + kz * kz = 1 ->
  let t := 1 - c in
  let x' := (c + t * kx * kx) * x + (t * kx * ky - s * kz) * y
            + (t * kx * kz + s * ky) * z + 0 in
  let y' := (t * ky * kx + s * kz) * x + (c + t * ky * ky) * y
            + (t * ky * kz - s * kx) * z + 0 in
  let z' := (t * kz * kx - s * ky) * x + (t * kz * ky + s * kx) * y
            + (c + t * kz * kz) * z + 0 in
  x' * x' + y' * y' + z' * z' = x * x + y * y + z * z
  /\ x' * kx + y' * ky + z' * kz = x * kx + y * ky + z * kz.
Proof. intros Hc Hk t x' y' z'. subst t x' y' z'. split; nsatz. Qed.

Lemma reference_rotation_about_axis : rotation_about_axis reference_host.
Proof.
  intros angle axis v Hax.
  pose proof (vlength_pos axis Hax) as Hn.
  pose proof (vlength_normalized axis Hax) as Hunit.
  assert (Hk : vdot (normalized axis) (normalized axis) = 1).
  { unfold vlength in Hunit. apply (f_equal (fun r => r * r)) in Hunit.
    rewrite sqrt_sqrt in Hunit by apply vdot_self_nonneg. lra. }
  assert (Haxis : axis = vscale (normalized axis) (vlength axis)).
  { unfold normalized. destruct (Req_dec_T _ _) as [|_]; [lra|].
    destruct axis as [ax ay az]. unfold vscale, vdiv; simpl.
    f_equal; field; lra. }
  pose proof (sin2_cos2 angle) as Hsc. unfold Rsqr in Hsc.
  destruct (rodrigues_isometry (cos angle) (sin angle)
              (vx (normalized axis)) (vy (normalized axis)) (vz (normalized axis))
              (vx v) (vy v) (vz v) ltac:(lra) Hk) as [Hlen Hdot].
  split.
  - unfold vlength. f_equal. exact Hlen.
  - apply (f_equal (fun r => r * vlength axis)) in Hdot.
    unfold rotated, reference_host, rotation_about.
    cbn [Rotation entry col line r0 r1 r2 r3 c0 c1 c2 c3 vx vy vz].
    set (k := normalized axis) in *. set (n := vlength axis) in *.
    rewrite Haxis. unfold vdot, vscale. cbn [vx vy vz].
    etransitivity; [|etransitivity; [exact Hdot|]]; ring.
Qed.

Lemma match_pole_target_final_distance_witness :
  let s0 := sample_bone Matrix_identity QUATERNION 0 in
  exists s',
    match_pole_target reference_host chain_start chain_end chain_start 1 s0
    = (Returns tt, s')
    /\ vlength (vsub (location s')
                     (vadd (to_translation (matrix chain_start))
                           (vdiv (chain_vector chain_start chain_end) 2)))
       = Rabs 1
    /\ vdot (vsub (location s')
                  (vadd (to_translation (matrix chain_start))
                        (vdiv (chain_vector chain_start chain_end) 2)))
            (chain_vector chain_start chain_end) = 0.
Proof.
  intros s0.
  apply (match_pole_target_final_distance reference_host chain_start chain_end
           chain_start 1 s0 reference_rotation_about_axis);
    [|reflexivity..].
  rewrite sample_chain_vector. intros [=]. lra.
Defined.

(** ** More on the rotation difference *)





Lemma acos_eq_0 c : -1 <= c <= 1 -> acos c = 0 -> c = 1.
Proof. intros Hc H. rewrite <- (cos_acos c Hc), H. apply cos_0. Qed.

Lemma acos_eq_PI c : -1 <= c <= 1 -> acos c = PI -> c = -1.
Proof. intros Hc H. rewrite <- (cos_acos c Hc), H. apply cos_PI. Qed.

Lemma acos_m1 : acos (-1) = PI.
Proof. replace (-1) with (Ropp 1) by lra. rewrite acos_opp, acos_1. ring. Qed.

Lemma clamp_eq_1 d : Rmin 1 (Rmax (-1) d) = 1 <-> 1 <= d.
Proof. unfold Rmin, Rmax. repeat (destruct (Rle_dec _ _)); lra. Qed.

Lemma clamp_eq_m1 d : Rmin 1 (Rmax (-1) d) = -1 <-> d <= -1.
Proof. unfold Rmin, Rmax. repeat (destruct (Rle_dec _ _)); lra. Qed.

(** X7.  The rotation difference is 0 exactly when the dot product of the two
    quaternions is at least 1 or at most -1: for unit quaternions, when
    they are equal or opposite. *)
Theorem rotation_difference_zero_iff h m1 m2 :
  let d := qdot (to_quaternion h m1) (to_quaternion h m2) in
  rotation_difference h m1 m2 = 0 <-> (1 <= d \/ d <= -1).
Proof.
  cbv zeta. unfold rotation_difference.
  set (d := qdot _ _). pose proof (clamp_bounds d) as Hc.
  pose proof (acos_bound (Rmin 1 (Rmax (-1) d))) as Hb.
  pose proof PI_RGT_0 as Hpi.
  split.
  - destruct (Rgt_dec _ _) as [Hgt|Hle]; intros H.
    + right. apply clamp_eq_m1. apply acos_eq_PI; [exact Hc | lra].
    + left. apply clamp_eq_1. apply acos_eq_0; [exact Hc | lra].
  - intros [H|H].
    + apply clamp_eq_1 in H. rewrite H, acos_1.
      destruct (Rgt_dec _ _); lra.
    + apply clamp_eq_m1 in H. rewrite H, acos_m1.
      destruct (Rgt_dec _ _); lra.
Qed.

(** ** More on the perpendicular vector *)

(** X8.  The helper axis of [perpendicular_vector] is never nearly parallel to
    [v]: the squared length of the result is at least half the squared
    length of [v] (the axis is at least 45 degrees away from [v]). *)
Theorem perpendicular_vector_not_nearly_parallel v :
  vdot v v <= 2 * vdot (perpendicular_vector v) (perpendicular_vector v).
Proof.
  destruct v as [x y z]. unfold perpendicular_vector, cross, vdot; simpl.
  destruct (Rlt_dec _ _) as [Hlt|Hge]; simpl.
  - apply Rsqr_lt_abs_1 in Hlt. unfold Rsqr in Hlt. nra.
  - assert (Hle : Rabs y <= Rabs x) by lra.
    apply Rsqr_le_abs_1 in Hle. unfold Rsqr in Hle. nra.
Qed.

Lemma normalized_vzero : normalized vzero = vzero.
Proof.
  unfold normalized. destruct (Req_dec_T _ _) as [_|N]; [reflexivity|].
  exfalso. apply N. unfold vlength, vdot, vzero; simpl.
  replace (0 * 0 + 0 * 0 + 0 * 0) with 0 by ring. apply sqrt_0.
Qed.

Lemma perpendicular_vector_vzero : perpendicular_vector vzero = vzero.
Proof.
  unfold perpendicular_vector, cross, vzero; simpl.
  destruct (Rlt_dec _ _); f_equal; ring.
Qed.

(** X9.  For a chain of no extent (zero chain vector) the perpendicular offset
    is the zero vector whatever the length asked for, and the pole is
    first placed on the head of the first bone. *)
Theorem pole_offset_degenerate_chain ik_first ik_last length :
  let a := to_translation (matrix ik_first) in
  let ikv := chain_vector ik_first ik_last in
  ikv = vzero ->
  pole_offset ikv length = vzero
  /\ pole_location a ikv (pole_offset ikv length) = a.
Proof.
  intros a ikv Hz. rewrite Hz.
  assert (Ho : pole_offset vzero length = vzero).
  { unfold pole_offset. rewrite perpendicular_vector_vzero, normalized_vzero.
    unfold vscale, vzero; simpl. f_equal; ring. }
  split; [exact Ho|]. rewrite Ho.
  destruct a as [x y z]. unfold pole_location, vadd, vdiv, vzero; simpl.
  f_equal; field.
Qed.

Lemma pole_offset_degenerate_chain_witness :
  let b := sample_bone (Translation (vec3 1 2 3)) QUATERNION 0 in
  pole_offset (chain_vector b b) 5 = vzero
  /\ pole_location (to_translation (matrix b)) (chain_vector b b)
                   (pole_offset (chain_vector b b) 5)
     = to_translation (matrix b).
Proof.
  intros b.
  apply (pole_offset_degenerate_chain b b 5).
  unfold chain_vector, vsub, vadd, vzero; simpl. f_equal; ring.
Defined.








(** ** More on the bracket scan *)

Lemma valued_returning f fk g : valued f fk g -> returning f fk.
Proof. intros H a s. destruct (H a s) as [s' E]. eauto. Qed.

Lemma returning_tail_distance h fk : returning (tail_distance h) fk.
Proof. intros a s. rewrite tail_distance_run. eauto. Qed.

(** The scan comes back once the window is left, whatever the objective
    writes to the bone. *)
Lemma scan_returns h f delta fk rot start :
  returning f fk ->
  forall n fuel a s,
    (n < fuel)%nat ->
    ~ in_window start (scan_angle a delta n) ->
    exists o s',
      find_min_range_loop h fuel f delta fk rot start a s = (Returns o, s').
Proof.
  intros Hf. induction n as [|n IH]; intros fuel a s Hfuel Hout;
    (destruct fuel as [|fuel]; [lia|]); simpl;
    destruct (_ && _) eqn:Hw; try (eexists _, _; reflexivity).
  - apply window_test in Hw. contradiction.
  - destruct (Hf (a - delta) s) as (l & s1 & E1).
    destruct (Hf a s1) as (c & s2 & E2).
    destruct (Hf (a + delta) s2) as (r & s3 & E3).
    rewrite (bind_Returns _ _ _ _ _ E1), (bind_Returns _ _ _ _ _ E2),
      (bind_Returns _ _ _ _ _ E3).
    destruct (Req_dec_T _ _) as [_|_].
    + rewrite assign_then_ret. eauto.
    + apply IH; [lia | exact Hout].
Qed.

(** X10.  With the default objective and the step pi/8 the bracket scan always
    comes back, with a bracket or without, after at most seventeen tests of
    its loop condition, on every host and every bone. *)
Theorem find_min_range_tail_distance_returns h fk s extra :
  exists o s',
    find_min_range h (17 + extra) fk (tail_distance h) (PI / 8) s
    = (Returns o, s').
Proof.
  rewrite find_min_range_unfold. cbv zeta.
  apply (scan_returns h _ _ _ _ _ (returning_tail_distance h fk) 16); [lia|].
  intros Hw. apply in_window_eighth in Hw. lia.
Qed.

(** Where a bracket comes from. *)
Lemma scan_Some_shape h f delta fk rot start :
  forall fuel a s lo hi s',
    find_min_range_loop h fuel f delta fk rot start a s
    = (Returns (Some (lo, hi)), s') ->
    exists k,
      (k < fuel)%nat
      /\ in_window start (scan_angle a delta k)
      /\ lo = scan_angle a delta k - delta
      /\ hi = scan_angle a delta k + delta.
Proof.
  induction fuel as [|fuel IH]; intros a s lo hi s'; [discriminate|].
  simpl. destruct (_ && _) eqn:Hw; [|discriminate].
  apply window_test in Hw.
  intros H. apply bind_inv_Returns in H as (l & s1 & E1 & H).
  apply bind_inv_Returns in H as (c & s2 & E2 & H).
  apply bind_inv_Returns in H as (r & s3 & E3 & H).
  destruct (Req_dec_T _ _) as [_|_].
  - rewrite assign_then_ret in H. injection H as <- <- _.
    exists 0%nat. simpl. repeat split; auto; try lia; apply Hw.
  - apply IH in H as (k & Hk & Hin & -> & ->).
    exists (S k). repeat split; auto; try lia; apply Hin.
Qed.

(** X11.  A bracket returned by the scan, for any objective and any step, is
    [a - delta, a + delta] around a scanned angle [a = start + k * delta]
    strictly inside the window of 2 pi around the start, and the bone is
    back in the rotation mode it had on entry. *)
Theorem find_min_range_bracket_shape h fuel fk f delta s lo hi s' :
  let start := aa_angle (rotation_axis_angle (snd (find_min_range_entry h s))) in
  find_min_range h fuel fk f delta s = (Returns (Some (lo, hi)), s') ->
  rotation_mode s' = rotation_mode s
  /\ exists k,
       (k < fuel)%nat
       /\ lo = start + INR k * delta - delta
       /\ hi = start + INR k * delta + delta
       /\ start - 2 * PI < start + INR k * delta < start + 2 * PI.
Proof.
  intros start H. split.
  - exact (find_min_range_found_restores_mode _ _ _ _ _ _ _ _ H).
  - rewrite find_min_range_unfold in H. cbv zeta in H. fold start in H.
    apply scan_Some_shape in H as (k & Hk & [Hlo Hhi] & -> & ->).
    exists k. rewrite scan_angle_INR in *. repeat split; auto; lra.
Qed.

(** *** Periodic objectives *)

Lemma least_witness (P : nat -> Prop) (n : nat) :
  (exists k, (k < n)%nat /\ P k) ->
  exists k, (k < n)%nat /\ P k /\ forall j, (j < k)%nat -> ~ P j.
Proof.
  induction n as [|n IH]; intros (k & Hk & HP); [lia|].
  destruct (Classical_Prop.classic (exists j, (j < n)%nat /\ P j)) as [Hex|Hno].
  - destruct (IH Hex) as (j & Hj & HPj & Hmin).
    exists j. split; [lia|]. split; assumption.
  - assert (k = n) as ->.
    { destruct (Nat.eq_dec k n) as [|Hne]; [assumption|].
      exfalso. apply Hno. exists k. split; [lia | exact HP]. }
    exists n. split; [lia|]. split; [exact HP|].
    intros j Hj HPj. apply Hno. eauto.
Qed.

(** Among finitely many samples one is smallest. *)
Lemma smallest_sample (u : nat -> R) n :
  exists k, (k <= n)%nat /\ forall j, (j <= n)%nat -> u k <= u j.
Proof.
  induction n as [|n (k & Hk & Hmin)].
  - exists 0%nat. split; [lia|]. intros j Hj. replace j with 0%nat by lia. lra.
  - destruct (Rle_dec (u k) (u (S n))) as [Hle|Hgt].
    + exists k. split; [lia|]. intros j Hj.
      destruct (Nat.eq_dec j (S n)) as [->|]; [exact Hle | apply Hmin; lia].
    + exists (S n). split; [lia|]. intros j Hj.
      destruct (Nat.eq_dec j (S n)) as [->|]; [lra|].
      specialize (Hmin j ltac:(lia)). lra.
Qed.

Lemma periodic_center_is_min g start :
  (forall x, g (x + 2 * PI) = g x) ->
  exists k, (k < 16)%nat
            /\ center_is_min g (PI / 8) (scan_angle start (PI / 8) k).
Proof.
  intros Hper.
  destruct (smallest_sample (fun k => g (start + INR k * (PI / 8))) 15%nat)
    as (k & Hk & Hmin).
  exists k. split; [lia|]. rewrite scan_angle_INR. split.
  - destruct k as [|k].
    + rewrite <- (Hper (start + INR 0 * (PI / 8) - PI / 8)).
      replace (start + INR 0 * (PI / 8) - PI / 8 + 2 * PI)
        with (start + INR 15 * (PI / 8)) by (simpl; field).
      apply Hmin. lia.
    + replace (start + INR (S k) * (PI / 8) - PI / 8)
        with (start + INR k * (PI / 8)) by (rewrite S_INR; field).
      apply Hmin. lia.
  - destruct (Nat.eq_dec k 15%nat) as [->|Hne].
    + replace (start + INR 15 * (PI / 8) + PI / 8)
        with (start + INR 0 * (PI / 8) + 2 * PI) by (simpl; field).
      rewrite Hper. apply Hmin. lia.
    + replace (start + INR k * (PI / 8) + PI / 8)
        with (start + INR (S k) * (PI / 8)) by (rewrite S_INR; field).
      apply Hmin. lia.
Qed.

(** X12.  For an objective whose value depends on the angle only and is
    periodic of period 2 pi, the scan with step pi/8 always returns a
    bracket, around one of its sixteen angles: the scan covers a full
    period, so the smallest of its samples has no smaller neighbour. *)
Theorem find_min_range_periodic_converges h fk f g s extra :
  let start := aa_angle (rotation_axis_angle (snd (find_min_range_entry h s))) in
  valued f fk g ->
  (forall x, g (x + 2 * PI) = g x) ->
  exists k,
    (k < 16)%nat
    /\ fst (find_min_range h (17 + extra) fk f (PI / 8) s)
       = Returns (Some (start + INR k * (PI / 8) - PI / 8,
                        start + INR k * (PI / 8) + PI / 8)).
Proof.
  intros start Hval Hper.
  destruct (least_witness
              (fun k => center_is_min g (PI / 8) (scan_angle start (PI / 8) k)) 16
              (periodic_center_is_min g start Hper))
    as (k & Hk & Hmin & Hfirst).
  exists k. split; [exact Hk|]. rewrite <- scan_angle_INR.
  exact (find_min_range_found_eighth h fk f g s extra k Hval Hk Hmin Hfirst).
Qed.

Lemma cos_periodic x : cos (x + 2 * PI) = cos x.
Proof. rewrite cos_plus, cos_2PI, sin_2PI. ring. Qed.

Lemma find_min_range_periodic_converges_witness :
  let s := sample_bone Matrix_identity QUATERNION 0 in
  let start := aa_angle (rotation_axis_angle (snd (find_min_range_entry reference_host s))) in
  exists k,
    (k < 16)%nat
    /\ fst (find_min_range reference_host 17 far_bone (pure_objective cos) (PI / 8) s)
       = Returns (Some (start + INR k * (PI / 8) - PI / 8,
                        start + INR k * (PI / 8) + PI / 8)).
Proof.
  apply (find_min_range_periodic_converges reference_host far_bone
           (pure_objective cos) cos (sample_bone Matrix_identity QUATERNION 0) 0).
  - apply valued_pure_objective.
  - exact cos_periodic.
Defined.

Lemma find_min_range_bracket_shape_witness :
  let s := sample_bone Matrix_identity QUATERNION 0 in
  let start := aa_angle (rotation_axis_angle (snd (find_min_range_entry reference_host s))) in
  exists lo hi s',
    find_min_range reference_host 17 far_bone (pure_objective (fun x => x * x))
                   (PI / 8) s = (Returns (Some (lo, hi)), s')
    /\ rotation_mode s' = rotation_mode s
    /\ exists k,
         (k < 17)%nat
         /\ lo = start + INR k * (PI / 8) - PI / 8
         /\ hi = start + INR k * (PI / 8) + PI / 8
         /\ start - 2 * PI < start + INR k * (PI / 8) < start + 2 * PI.
Proof.
  intros s start. pose proof find_min_range_at_start as E.
  destruct (find_min_range reference_host 17 far_bone
              (pure_objective (fun x => x * x)) (PI / 8)
              (sample_bone Matrix_identity QUATERNION 0)) as [o s'] eqn:Hrun.
  simpl in E. subst o. exists (0 - PI / 8), (0 + PI / 8), s'.
  split; [exact Hrun|].
  exact (find_min_range_bracket_shape reference_host 17 far_bone _ (PI / 8)
           (sample_bone Matrix_identity QUATERNION 0) _ _ s' Hrun).
Defined.

(** ** More on the tail distance *)

Lemma vlength_nonneg v : 0 <= vlength v.
Proof. unfold vlength. apply sqrt_pos. Qed.

Lemma vlength_zero_iff v : vlength v = 0 <-> v = vzero.
Proof.
  split.
  - intros H. apply vdot_self_zero. unfold vlength in H.
    apply sqrt_eq_0 in H; [exact H | apply vdot_self_nonneg].
  - intros ->. unfold vlength, vdot, vzero; simpl.
    replace (0 * 0 + 0 * 0 + 0 * 0) with 0 by ring. apply sqrt_0.
Qed.

Lemma vsub_zero_iff u v : vsub u v = vzero <-> u = v.
Proof.
  destruct u, v. unfold vsub, vzero; simpl. split.
  - intros [= H1 H2 H3]. f_equal; lra.
  - intros [= -> -> ->]. f_equal; lra.
Qed.

(** X13.  Every evaluation of [tail_distance] returns; its value is
    non-negative, and 0 exactly when the re-evaluated tail of the bone
    coincides with the reference tail; the bone comes back in the rotation
    mode it had. *)
Theorem tail_distance_measures h angle fk s :
  exists v s',
    tail_distance h angle fk s = (Returns v, s')
    /\ 0 <= v
    /\ (v = 0 <-> tail (tail_distance_probe h angle s) = tail fk)
    /\ rotation_mode s' = rotation_mode s.
Proof.
  rewrite tail_distance_run. eexists _, _. split; [reflexivity|].
  split; [apply vlength_nonneg|]. split; [|reflexivity].
  rewrite vlength_zero_iff, vsub_zero_iff. split; congruence.
Qed.

(** ** More on the ternary search *)

(** The values returned decide the search: a stateful objective is
    searched like the pure objective of its values. *)
Lemma ternarySearch_valued f fk g prec :
  valued f fk g ->
  forall fuel left right s s0,
    fst (ternarySearch fuel f left right fk prec s)
    = fst (ternarySearch fuel (pure_objective g) left right fk prec s0).
Proof.
  intros Hval. induction fuel as [|fuel IH]; intros left right s s0;
    [reflexivity|].
  simpl. destruct (Rlt_dec _ _); [reflexivity|].
  destruct (Hval (left + (right - left) / 3) s) as [s1 E1].
  destruct (Hval (right - (right - left) / 3) s1) as [s2 E2].
  rewrite (bind_Returns _ _ _ _ _ E1), (bind_Returns _ _ _ _ _ E2).
  unfold pure_objective at 1 2, bind, ret.
  destruct (Rgt_dec _ _); apply IH.
Qed.

Lemma ternarySearch_in_bracket f fk prec :
  forall fuel left right s m s',
    left <= right ->
    ternarySearch fuel f left right fk prec s = (Returns m, s') ->
    left <= m <= right.
Proof.
  induction fuel as [|fuel IH]; intros left right s m s' Hlr; [discriminate|].
  simpl. destruct (Rlt_dec _ _).
  - intros [= <- _]. lra.
  - intros H. apply bind_inv_Returns in H as (fl & s1 & _ & H).
    apply bind_inv_Returns in H as (fr & s2 & _ & H).
    destruct (Rgt_dec _ _); apply IH in H; lra.
Qed.

Lemma ternarySearch_keeps_mode f fk prec :
  mode_preserving f ->
  forall fuel left right s o s',
    ternarySearch fuel f left right fk prec s = (o, s') ->
    rotation_mode s' = rotation_mode s.
Proof.
  intros Hf. induction fuel as [|fuel IH]; intros left right s o s'.
  - now intros [= _ <-].
  - simpl. destruct (Rlt_dec _ _); [now intros [= _ <-]|].
    unfold bind.
    destruct (f (left + (right - left) / 3) fk s) as [[fl| |] s1] eqn:E1;
      apply Hf in E1; try (intros [= _ <-]; exact E1).
    destruct (f (right - (right - left) / 3) fk s1) as [[fr| |] s2] eqn:E2;
      apply Hf in E2; try (intros [= _ <-]; congruence).
    destruct (Rgt_dec _ _); intros H; apply IH in H; congruence.
Qed.

Lemma ternarySearch_pure_returns g fk prec s :
  0 < prec ->
  forall n left right extra,
    left <= right ->
    (right - left) * (2 / 3) ^ n < prec ->
    exists m,
      ternarySearch (S n + extra) (pure_objective g) left right fk prec s
      = (Returns m, s).
Proof.
  intros Hprec. induction n as [|n IH]; intros left right extra Hlr Hw.
  - simpl in Hw. rewrite ternarySearch_stop by (rewrite Rabs_pos_eq; lra). eauto.
  - change (S (S n) + extra)%nat with (S (S n + extra)).
    destruct (Rlt_dec (Rabs (right - left)) prec) as [Hs|Hs].
    + rewrite ternarySearch_stop by exact Hs. eauto.
    + rewrite ternarySearch_step by exact Hs. cbv zeta. simpl in Hw.
      destruct (Rgt_dec _ _); apply IH; lra.
Qed.

Lemma enough_iterations width prec :
  0 <= width -> 0 < prec -> exists n, width * (2 / 3) ^ n < prec.
Proof.
  intros Hw Hp. destruct (Req_dec width 0) as [->|Hne].
  - exists 0%nat. lra.
  - assert (Hpos : 0 < width) by lra.
    destruct (pow_lt_1_zero (2 / 3)) with (y := prec / width) as [N HN].
    + rewrite Rabs_pos_eq; lra.
    + now apply Rdiv_lt_0_compat.
    + exists N. specialize (HN N (Nat.le_refl N)).
      rewrite Rabs_pos_eq in HN by (apply pow_le; lra).
      apply (Rmult_lt_compat_l width) in HN; [|exact Hpos].
      replace (width * (prec / width)) with prec in HN by (field; lra).
      exact HN.
Qed.

(** X14.  On an objective that is strictly unimodal on the bracket, with its
    minimum at [x0], and for a positive precision, the ternary search
    returns, given enough iterations, a value within the precision of
    [x0]. *)
Theorem ternarySearch_converges f g x0 left right fk prec s :
  valued f fk g ->
  unimodal g x0 left right ->
  left <= x0 <= right ->
  0 < prec ->
  exists n, forall extra, exists m,
    fst (ternarySearch (n + extra) f left right fk prec s) = Returns m
    /\ Rabs (m - x0) < prec.
Proof.
  intros Hval Huni Hx Hprec.
  destruct (enough_iterations (right - left) prec ltac:(lra) Hprec) as [n Hn].
  exists (S n). intros extra.
  destruct (ternarySearch_unimodal g x0 left right fk prec s Huni Hprec n
              left right extra ltac:(lra) ltac:(lra) Hx Hn) as (m & E & Hm).
  exists m. split; [|exact Hm].
  now rewrite (ternarySearch_valued f fk g prec Hval _ _ _ s s), E.
Qed.

(** X15.  Unimodal or not, for [left <= right] and a positive precision the
    ternary search returns, given enough iterations, a value inside its
    bracket. *)
Theorem ternarySearch_stays_in_bracket f g left right fk prec s :
  valued f fk g ->
  left <= right ->
  0 < prec ->
  exists n, forall extra, exists m,
    fst (ternarySearch (n + extra) f left right fk prec s) = Returns m
    /\ left <= m <= right.
Proof.
  intros Hval Hlr Hprec.
  destruct (enough_iterations (right - left) prec ltac:(lra) Hprec) as [n Hn].
  exists (S n). intros extra.
  destruct (ternarySearch_pure_returns g fk prec s Hprec n left right extra
              Hlr Hn) as [m E].
  exists m. split.
  - now rewrite (ternarySearch_valued f fk g prec Hval _ _ _ s s), E.
  - exact (ternarySearch_in_bracket _ _ _ _ _ _ _ _ _ Hlr E).
Qed.

(** X16.  With a precision that is not positive the exit test
    [abs(right - left) < absolutePrecision] never holds: the loop never
    returns, whatever the budget. *)
Theorem ternarySearch_nonpositive_precision f left right fk prec s fuel :
  returning f fk ->
  prec <= 0 ->
  fst (ternarySearch fuel f left right fk prec s) = OutOfFuel.
Proof.
  intros Hf Hprec. revert left right s.
  induction fuel as [|fuel IH]; intros left right s; [reflexivity|].
  simpl. destruct (Rlt_dec _ _) as [Hlt|_].
  - pose proof (Rabs_pos (right - left)). lra.
  - destruct (Hf (left + (right - left) / 3) s) as (fl & s1 & E1).
    destruct (Hf (right - (right - left) / 3) s1) as (fr & s2 & E2).
    rewrite (bind_Returns _ _ _ _ _ E1), (bind_Returns _ _ _ _ _ E2).
    destruct (Rgt_dec _ _); apply IH.
Qed.

(** ** More on the rotation correction *)

Lemma correct_rotation_inv h fuel fk s s' :
  correct_rotation h fuel fk s = (Returns tt, s') ->
  exists lo hi s1 alfamin s2,
    find_min_range h fuel fk (tail_distance h) (PI / 8) s
    = (Returns (Some (lo, hi)), s1)
    /\ ternarySearch fuel (tail_distance h) lo hi fk (1 / 10) s1
       = (Returns alfamin, s2)
    /\ s' = with_rotation_mode (rotation_mode s2)
              (rotation_mode_changed h (rotation_mode s2)
                 (with_angle alfamin
                    (if decide (rotation_mode s2 <> AXIS_ANGLE)
                     then with_rotation_mode AXIS_ANGLE
                            (rotation_mode_changed h AXIS_ANGLE s2)
                     else s2))).
Proof.
  unfold correct_rotation. intros H.
  apply bind_inv_Returns in H as ([[lo hi]|] & s1 & E1 & H); [|discriminate].
  apply bind_inv_Returns in H as (alfamin & s2 & E2 & H).
  exists lo, hi, s1, alfamin, s2. split; [exact E1|]. split; [exact E2|].
  unfold bind, get, assign_rotation_mode, assign_angle, modify, ret in H.
  destruct (decide _); now injection H as <-.
Qed.

(** X17.  When [correct_rotation] returns, the joint is in the rotation mode it
    had before the call. *)
Theorem correct_rotation_restores_mode h fuel fk s s' :
  correct_rotation h fuel fk s = (Returns tt, s') ->
  rotation_mode s' = rotation_mode s.
Proof.
  intros H.
  apply correct_rotation_inv in H as (lo & hi & s1 & m & s2 & E1 & E2 & ->).
  apply find_min_range_found_restores_mode in E1.
  apply (ternarySearch_keeps_mode _ _ _ (mode_preserving_tail_distance h)) in E2.
  simpl. congruence.
Qed.

(** X18.  For a joint in axis-angle mode, on a host that keeps the angle when
    the current mode is re-assigned, the angle a successful correction
    writes is within pi/8 of one of the scanned angles of the window. *)
Theorem correct_rotation_angle_in_bracket h fuel fk s s' :
  let start := aa_angle (rotation_axis_angle (snd (find_min_range_entry h s))) in
  same_mode_keeps_angle h ->
  rotation_mode s = AXIS_ANGLE ->
  correct_rotation h fuel fk s = (Returns tt, s') ->
  exists k,
    (k < fuel)%nat
    /\ start - 2 * PI < start + INR k * (PI / 8) < start + 2 * PI
    /\ Rabs (aa_angle (rotation_axis_angle s') - (start + INR k * (PI / 8)))
       <= PI / 8.
Proof.
  intros start Hkeep Hmode H.
  apply correct_rotation_inv in H as (lo & hi & s1 & m & s2 & E1 & E2 & ->).
  pose proof (find_min_range_found_restores_mode _ _ _ _ _ _ _ _ E1) as M1.
  pose proof (ternarySearch_keeps_mode _ _ _ (mode_preserving_tail_distance h)
                _ _ _ _ _ _ E2) as M2.
  rewrite find_min_range_unfold in E1. cbv zeta in E1. fold start in E1.
  apply scan_Some_shape in E1 as (k & Hk & [Hlo Hhi] & -> & ->).
  rewrite scan_angle_INR in *.
  pose proof PI_RGT_0 as Hpi.
  apply ternarySearch_in_bracket in E2; [|lra].
  exists k. split; [exact Hk|]. split; [lra|].
  assert (Hm2 : rotation_mode s2 = AXIS_ANGLE) by congruence.
  rewrite Hm2. destruct (decide _) as [Hne|_]; [congruence|].
  set (s3 := with_angle m s2).
  pose proof (Hkeep s3) as Ha.
  replace (rotation_mode s3) with AXIS_ANGLE in Ha by (symmetry; exact Hm2).
  cbn [rotation_axis_angle with_rotation_mode]. rewrite Ha. simpl.
  apply Rabs_le. lra.
Qed.

(** *** A successful correction on the reference host *)

Lemma reference_tail_distance_valued_any fk :
  valued (tail_distance reference_host) fk (reference_distance fk).
Proof. intros a s. rewrite tail_distance_run. eexists. reflexivity. Qed.

Lemma reference_distance_origin_0 : reference_distance origin_bone 0 = 0.
Proof.
  unfold reference_distance, vlength, vdot, vsub; simpl.
  replace (_ + _ + _) with 0 by ring. apply sqrt_0.
Qed.

Lemma reference_bracket_found :
  exists s1,
    find_min_range reference_host 17 origin_bone (tail_distance reference_host)
                   (PI / 8) axis_angle_joint
    = (Returns (Some (0 - PI / 8, 0 + PI / 8)), s1).
Proof.
  pose proof (find_min_range_found_eighth reference_host origin_bone
                (tail_distance reference_host) (reference_distance origin_bone)
                axis_angle_joint 0 0
                (reference_tail_distance_valued_any _)) as H.
  cbv zeta in H. unfold axis_angle_joint in H at 1 2 3.
  rewrite reference_entry_angle in H.
  assert (E : fst (find_min_range reference_host 17 origin_bone
                     (tail_distance reference_host) (PI / 8) axis_angle_joint)
              = Returns (Some (0 - PI / 8, 0 + PI / 8))).
  { apply H; [lia | | intros j Hj; lia].
    split; simpl; rewrite reference_distance_origin_0; apply vlength_nonneg. }
  destruct (find_min_range _ _ _ _ _ _) as [o s1]. simpl in E. subst o. eauto.
Qed.

Lemma reference_correction_returns :
  exists s',
    correct_rotation reference_host 17 origin_bone axis_angle_joint
    = (Returns tt, s').
Proof.
  destruct reference_bracket_found as [s1 E1].
  pose proof PI_RGT_0 as Hpi. pose proof PI_4 as Hpi4.
  destruct (ternarySearch_pure_returns (reference_distance origin_bone)
              origin_bone (1 / 10) s1 ltac:(lra) 6 (0 - PI / 8) (0 + PI / 8) 10
              ltac:(lra)) as [m Em].
  { simpl. lra. }
  pose proof (ternarySearch_valued _ _ _ (1 / 10)
                (reference_tail_distance_valued_any origin_bone)
                17 (0 - PI / 8) (0 + PI / 8) s1 s1) as Hv.
  change (S 6 + 10)%nat with 17%nat in Em. rewrite Em in Hv.
  destruct (ternarySearch 17 (tail_distance reference_host) _ _ _ _ s1)
    as [o s2] eqn:E2.
  simpl in Hv. subst o.
  unfold correct_rotation. rewrite (bind_Returns _ _ _ _ _ E1).
  cbv beta iota. rewrite (bind_Returns _ _ _ _ _ E2).
  unfold bind, get, assign_rotation_mode, assign_angle, modify, ret.
  destruct (decide _); eauto.
Qed.

Lemma correct_rotation_restores_mode_witness :
  exists s',
    correct_rotation reference_host 17 origin_bone axis_angle_joint
    = (Returns tt, s')
    /\ rotation_mode s' = rotation_mode axis_angle_joint.
Proof.
  destruct reference_correction_returns as [s' E]. exists s'.
  split; [exact E|].
  exact (correct_rotation_restores_mode reference_host 17 origin_bone
           axis_angle_joint s' E).
Defined.

Lemma correct_rotation_angle_in_bracket_witness :
  let start := aa_angle (rotation_axis_angle
                           (snd (find_min_range_entry reference_host axis_angle_joint))) in
  exists s' k,
    correct_rotation reference_host 17 origin_bone axis_angle_joint
    = (Returns tt, s')
    /\ (k < 17)%nat
    /\ start - 2 * PI < start + INR k * (PI / 8) < start + 2 * PI
    /\ Rabs (aa_angle (rotation_axis_angle s') - (start + INR k * (PI / 8)))
       <= PI / 8.
Proof.
  intros start. destruct reference_correction_returns as [s' E].
  destruct (correct_rotation_angle_in_bracket reference_host 17 origin_bone
              axis_angle_joint s' reference_keeps_angle eq_refl E)
    as (k & Hk).
  exists s', k. split; [exact E | exact Hk].
Defined.

Lemma ternarySearch_converges_witness :
  exists n, forall extra, exists m,
    fst (ternarySearch (n + extra) (tail_distance reference_host) (-1) 1
           origin_bone (1 / 10) axis_angle_joint) = Returns m
    /\ Rabs (m - 0) < 1 / 10.
Proof.
  apply (ternarySearch_converges (tail_distance reference_host)
           (reference_distance origin_bone) 0 (-1) 1 origin_bone (1 / 10)
           axis_angle_joint (reference_tail_distance_valued_any _)); try lra.
  assert (Habs : forall a, reference_distance origin_bone a = Rabs a).
  { intros a. unfold reference_distance, vlength, vdot, vsub; simpl.
    replace (_ + _ + _) with (Rsqr a) by (unfold Rsqr; ring).
    apply sqrt_Rsqr_abs. }
  split; intros x y H1 H2 H3; rewrite !Habs.
  - rewrite !Rabs_left1 by lra. lra.
  - rewrite !Rabs_pos_eq by lra. lra.
Defined.

Lemma ternarySearch_stays_in_bracket_witness :
  exists n, forall extra, exists m,
    fst (ternarySearch (n + extra) (pure_objective sin) 0 10 origin_bone (1 / 10)
           axis_angle_joint) = Returns m
    /\ 0 <= m <= 10.
Proof.
  apply (ternarySearch_stays_in_bracket (pure_objective sin) sin 0 10 origin_bone
           (1 / 10) axis_angle_joint (valued_pure_objective _ _)); lra.
Defined.

Lemma ternarySearch_nonpositive_precision_witness :
  fst (ternarySearch 1000 (tail_distance reference_host) (-1) 1 origin_bone 0
         axis_angle_joint) = OutOfFuel.
Proof.
  apply (ternarySearch_nonpositive_precision (tail_distance reference_host)
           (-1) 1 origin_bone 0 axis_angle_joint 1000).
  - apply returning_tail_distance.
  - lra.
Defined.

(** ** More on the legacy stretch blocks *)

Lemma with_props_same b : with_props (props b) b = b.
Proof. now destruct b. Qed.

(** X19.  The stretch step of [ik2fk_leg] touches nothing of [footi] but its
    property [stretch_length]; it fails only with [KeyError], [footi]
    untouched; and after a copy [footi] and [thigh] agree on
    [stretch_length]. *)
Theorem ik2fk_leg_stretch_frame thigh footi o footi' :
  ik2fk_leg_stretch thigh footi = (o, footi') ->
  (forall key, key <> "stretch_length" ->
               props footi' !! key = props footi !! key)
  /\ with_props (props footi) footi' = footi
  /\ (o <> Returns tt -> o = Raises KeyError /\ footi' = footi)
  /\ (o = Returns tt ->
      has_key "stretch_lenght" footi = true ->
      has_key "stretch_lenght" thigh = true ->
      is_Some (props thigh !! "stretch_length")
      /\ props footi' !! "stretch_length" = props thigh !! "stretch_length").
Proof.
  unfold ik2fk_leg_stretch, bind, get, modify, raise, ret.
  destruct (has_key "stretch_lenght" footi), (has_key "stretch_lenght" thigh);
    simpl; try (intros [= <- <-]; repeat split; auto using with_props_same;
                try congruence; discriminate).
  destruct (props thigh !! "stretch_length") as [v|] eqn:Hv.
  - intros [= <- <-]. split; [|split; [|split]].
    + intros key Hk. simpl. now rewrite lookup_insert_ne.
    + now destruct footi.
    + congruence.
    + intros _ _ _. split; [eauto|]. simpl. now rewrite lookup_insert_eq.
  - intros [= <- <-]. split; [reflexivity|]. split; [apply with_props_same|].
    split; [auto|discriminate].
Qed.

Lemma ik2fk_leg_stretch_frame_witness :
  exists footi',
    ik2fk_leg_stretch legacy_thigh legacy_foot = (Returns tt, footi')
    /\ (forall key, key <> "stretch_length" ->
                    props footi' !! key = props legacy_foot !! key)
    /\ with_props (props legacy_foot) footi' = legacy_foot
    /\ props footi' !! "stretch_length" = props legacy_thigh !! "stretch_length".
Proof.
  eexists. split; [reflexivity|].
  destruct (ik2fk_leg_stretch_frame legacy_thigh legacy_foot _ _ eq_refl)
    as (Hkeys & Hframe & _ & Hcopy).
  split; [exact Hkeys|]. split; [exact Hframe|].
  now apply Hcopy.
Defined.

Lemma chain_extent_zero_iff b1 b2 :
  vlength (vector b1) + vlength (vector b2) = 0
  <-> vector b1 = vzero /\ vector b2 = vzero.
Proof.
  pose proof (vlength_nonneg (vector b1)). pose proof (vlength_nonneg (vector b2)).
  rewrite <- !vlength_zero_iff. lra.
Qed.

(** X20.  The legacy stretch block of [fk2ik_arm] leaves the FK bone untouched
    on every exit but completion and never changes another property than
    [stretch_length]; it is skipped exactly when the IK end bone has no
    [auto_stretch] key, and divides by zero exactly when [auto_stretch] is
    nonzero and both FK bones have no extent. *)
Theorem fk2ik_arm_stretch_exits uarm farm uarmi farmi handi e uarm' :
  fk2ik_arm_stretch uarm farm uarmi farmi handi = (e, uarm') ->
  (e <> StretchDone -> uarm' = uarm)
  /\ (e = NotLegacy <-> props handi !! "auto_stretch" = None)
  /\ (e = StretchZeroDivisionError <->
      exists a, props handi !! "auto_stretch" = Some a /\ a <> 0
                /\ vector uarm = vzero /\ vector farm = vzero)
  /\ (forall key, key <> "stretch_length" ->
                  props uarm' !! key = props uarm !! key).
Proof.
  unfold fk2ik_arm_stretch.
  destruct (props handi !! "auto_stretch") as [a|].
  - destruct (Req_dec_T a 0) as [Ha|Ha].
    + destruct (props handi !! "stretch_length") as [v|]; intros [= <- <-].
      * split; [congruence|]. split; [split; discriminate|].
        split; [split; [discriminate | intros (a' & [= <-] & Hne & _); contradiction]|].
        intros key Hk. simpl. now rewrite lookup_insert_ne.
      * split; [reflexivity|]. split; [split; discriminate|].
        split; [split; [discriminate | intros (a' & [= <-] & Hne & _); contradiction]|].
        reflexivity.
    + destruct (Req_dec_T _ 0) as [Hz|Hnz].
      * intros [= <- <-]. split; [reflexivity|]. split; [split; discriminate|].
        split; [|reflexivity]. split; [|reflexivity].
        intros _. exists a. apply chain_extent_zero_iff in Hz. tauto.
      * destruct (props uarm !! "stretch_length") as [v|]; intros [= <- <-].
        -- split; [congruence|]. split; [split; discriminate|].
           split; [split; [discriminate|]|].
           ++ intros (a' & _ & _ & Hz). apply chain_extent_zero_iff in Hz.
              contradiction.
           ++ intros key Hk. simpl. now rewrite lookup_insert_ne.
        -- split; [reflexivity|]. split; [split; discriminate|].
           split; [split; [discriminate|]|reflexivity].
           intros (a' & _ & _ & Hz). apply chain_extent_zero_iff in Hz.
           contradiction.
  - intros [= <- <-]. split; [reflexivity|]. split; [split; reflexivity|].
    split; [|reflexivity]. split; [discriminate|].
    intros (a & [=] & _).
Qed.

(** X21.  With [auto_stretch] nonzero the legacy stretch block multiplies
    [stretch_length] by the ratio of the IK chain length to the FK chain
    length; chains of equal length leave the bone exactly as it was. *)
Theorem fk2ik_arm_stretch_ratio uarm farm uarmi farmi handi a v :
  let fk_extent := vlength (vector uarm) + vlength (vector farm) in
  let ik_extent := vlength (vector uarmi) + vlength (vector farmi) in
  props handi !! "auto_stretch" = Some a ->
  a <> 0 ->
  props uarm !! "stretch_length" = Some v ->
  fk_extent <> 0 ->
  exists uarm',
    fk2ik_arm_stretch uarm farm uarmi farmi handi = (StretchDone, uarm')
    /\ props uarm' !! "stretch_length" = Some (v * (ik_extent / fk_extent))
    /\ (ik_extent = fk_extent -> uarm' = uarm).
Proof.
  intros fk_extent ik_extent Hauto Ha Hv Hfk. unfold fk2ik_arm_stretch.
  rewrite Hauto. destruct (Req_dec_T a 0); [contradiction|].
  fold fk_extent. destruct (Req_dec_T fk_extent 0); [contradiction|].
  rewrite Hv. fold ik_extent. eexists. split; [reflexivity|].
  split; [simpl; apply lookup_insert_eq|].
  intros ->. replace (v * (fk_extent / fk_extent)) with v by (field; exact Hfk).
  rewrite insert_id by exact Hv. apply with_props_same.
Qed.

Lemma arm_bone_extent extent p :
  0 <= extent -> vlength (vector (arm_bone extent p)) = extent.
Proof.
  intros H. unfold vlength, vdot, arm_bone; simpl.
  replace (_ + _ + _) with (extent * extent) by ring. now apply sqrt_square.
Qed.

Lemma fk2ik_arm_stretch_ratio_witness :
  exists uarm',
    fk2ik_arm_stretch legacy_uarm legacy_farm legacy_uarmi legacy_farmi legacy_handi
    = (StretchDone, uarm')
    /\ props uarm' !! "stretch_length" = Some (1 * (22 / 10 / 2)).
Proof.
  destruct (fk2ik_arm_stretch_ratio legacy_uarm legacy_farm legacy_uarmi
              legacy_farmi legacy_handi 1 1) as (uarm' & E & Hv & _).
  - reflexivity.
  - lra.
  - reflexivity.
  - unfold legacy_uarm, legacy_farm. rewrite !arm_bone_extent by lra. lra.
  - exists uarm'. split; [exact E|]. rewrite Hv. f_equal. f_equal.
    unfold legacy_uarm, legacy_farm, legacy_uarmi, legacy_farmi.
    rewrite !arm_bone_extent by lra. lra.
Defined.

Lemma fk2ik_arm_stretch_exits_witness :
  let flat := arm_bone 0 {[ "stretch_length" := 1 ]} in
  fk2ik_arm_stretch flat flat legacy_uarmi legacy_farmi legacy_handi
  = (StretchZeroDivisionError, flat)
  /\ exists a, props legacy_handi !! "auto_stretch" = Some a /\ a <> 0
               /\ vector flat = vzero /\ vector flat = vzero.
Proof.
  intros flat.
  assert (E : fk2ik_arm_stretch flat flat legacy_uarmi legacy_farmi legacy_handi
              = (StretchZeroDivisionError, flat)).
  { unfold fk2ik_arm_stretch.
    change (props legacy_handi !! "auto_stretch") with (Some 1). cbv beta iota.
    destruct (Req_dec_T 1 0); [lra|].
    destruct (Req_dec_T _ 0) as [_|Hnz]; [reflexivity|].
    exfalso. apply Hnz. unfold flat. rewrite !arm_bone_extent by lra. lra. }
  split; [exact E|].
  destruct (fk2ik_arm_stretch_exits flat flat legacy_uarmi legacy_farmi
              legacy_handi _ _ E) as (_ & _ & Hz & _).
  now apply Hz.
Defined.

(** ** Selection test of the panel *)

Lemma name_in_true n sel : name_in n sel = true <-> n ∈ sel.
Proof. unfold name_in. apply bool_decide_eq_true. Qed.

Lemma is_selected_loop_true sel l :
  is_selected_loop sel l = true <-> exists n, n ∈ l /\ n ∈ sel.
Proof.
  induction l as [|x l IH]; simpl.
  - split; [discriminate|]. intros (n & Hn & _). now apply elem_of_nil in Hn.
  - destruct (name_in x sel) eqn:Hx.
    + split; [|reflexivity]. intros _. exists x. split; [left|].
      now apply name_in_true.
    + rewrite IH. split.
      * intros (n & Hn & Hs). exists n. split; [now right | exact Hs].
      * intros (n & Hn & Hs). apply elem_of_cons in Hn as [->|Hn].
        -- apply name_in_true in Hs. congruence.
        -- eauto.
Qed.

(** X22.  [is_selected] holds of a list exactly when one of its names is a
    selected bone or the active bone, of a single name exactly when it is
    selected or active; a single name behaves as the one-element list and
    the empty list is never selected. *)
Theorem is_selected_spec selected active :
  let selected_bones := selected_names selected active in
  (forall l, is_selected selected_bones (NameList l) = true
             <-> exists n, n ∈ l /\ (n ∈ selected \/ n = active))
  /\ (forall n, is_selected selected_bones (Name n) = true
                <-> (n ∈ selected \/ n = active))
  /\ (forall n, is_selected selected_bones (Name n)
                = is_selected selected_bones (NameList [n]))
  /\ is_selected selected_bones (NameList []) = false.
Proof.
  intros selected_bones.
  assert (Hin : forall n, n ∈ selected_bones <-> n ∈ selected \/ n = active).
  { intros n. unfold selected_bones, selected_names.
    rewrite elem_of_app, list_elem_of_singleton. tauto. }
  split; [|split; [|split]].
  - intros l. simpl. rewrite is_selected_loop_true.
    split; intros (n & Hn & Hs); exists n; (split; [exact Hn|]); now apply Hin.
  - intros n. simpl. rewrite <- Hin, <- name_in_true.
    destruct (name_in n selected_bones); tauto.
  - intros n. simpl. destruct (name_in n selected_bones); reflexivity.
  - reflexivity.
Qed.

